(** * TankSplit: the record parser and the split engine of [src/App.jsx]

    A shallow embedding of the pure logic of the application:
    - [parseLinesToPairs], the heuristic text-to-record parser, together with
      the part of ECMAScript it runs on (strings of UTF-16 code units,
      backtracking regular expressions, [split], [trim], [parseInt]);
    - [round2], [totalKm], [computed], [summary] and [copyTikkieText], the
      split and settlement engine, over a model of ECMAScript Numbers
      (IEEE 754 binary64: every operation rounds its exact result to nearest,
      ties to even).

    Definitions come first, the theorems about them follow. *)

From Stdlib Require Import ZArith NArith QArith Qround Qabs Qpower Qreduction.
From Stdlib Require Import List Bool String Ascii Lia Lqa.
From Stdlib Require SpecFloat.
Import ListNotations.

Set Implicit Arguments.
Close Scope Q_scope.

(* ================================================================== *)
(** * ECMAScript strings *)

Module JsString.

(** A string is a sequence of UTF-16 code units. *)
Definition jsstring := list N.

(** Literals are written as Rocq strings (UTF-8 bytes) and decoded. *)
Fixpoint utf16 (bs : list N) : jsstring :=
  match bs with
  | [] => []
  | b0 :: r0 =>
      if (b0 <? 128)%N then b0 :: utf16 r0
      else match r0 with
      | [] => [b0]
      | b1 :: r1 =>
          if (b0 <? 224)%N then ((b0 - 192) * 64 + (b1 - 128))%N :: utf16 r1
          else match r1 with
          | [] => [b0; b1]
          | b2 :: r2 =>
              if (b0 <? 240)%N
              then ((b0 - 224) * 4096 + (b1 - 128) * 64 + (b2 - 128))%N :: utf16 r2
              else match r2 with
              | [] => [b0; b1; b2]
              | b3 :: r3 =>
                  let cp := ((b0 - 240) * 262144 + (b1 - 128) * 4096
                             + (b2 - 128) * 64 + (b3 - 128))%N in
                  let v := (cp - 65536)%N in
                  (55296 + v / 1024)%N :: (56320 + v mod 1024)%N :: utf16 r3
              end
          end
      end
  end.

Definition lit (s : string) : jsstring :=
  utf16 (map N_of_ascii (list_ascii_of_string s)).

Definition inRange (lo hi c : N) : bool := ((lo <=? c) && (c <=? hi))%N.

(** WhiteSpace and LineTerminator code units: the class [\s] of regular
    expressions, and what [String.prototype.trim] strips. *)
Definition isSpace (c : N) : bool :=
  inRange 9 13 c || (c =? 32)%N || (c =? 160)%N || (c =? 5760)%N
  || inRange 8192 8202 c || (c =? 8232)%N || (c =? 8233)%N
  || (c =? 8239)%N || (c =? 8287)%N || (c =? 12288)%N || (c =? 65279)%N.

(** The class [\d]; [\D] is its complement. *)
Definition isDigit (c : N) : bool := inRange 48 57 c.

Fixpoint dropWhile (p : N -> bool) (s : jsstring) : jsstring :=
  match s with
  | [] => []
  | c :: s' => if p c then dropWhile p s' else s
  end.

(** [String.prototype.trim]. *)
Definition trim (s : jsstring) : jsstring :=
  rev (dropWhile isSpace (rev (dropWhile isSpace s))).

(** [Boolean(s)] for a string: the empty string is falsy. *)
Definition nonEmpty (s : jsstring) : bool :=
  match s with [] => false | _ :: _ => true end.

(** Decimal digits of a natural number, most significant first. *)
Fixpoint uintDigits (d : Decimal.uint) : jsstring :=
  match d with
  | Decimal.Nil => []
  | Decimal.D0 r => 48%N :: uintDigits r
  | Decimal.D1 r => 49%N :: uintDigits r
  | Decimal.D2 r => 50%N :: uintDigits r
  | Decimal.D3 r => 51%N :: uintDigits r
  | Decimal.D4 r => 52%N :: uintDigits r
  | Decimal.D5 r => 53%N :: uintDigits r
  | Decimal.D6 r => 54%N :: uintDigits r
  | Decimal.D7 r => 55%N :: uintDigits r
  | Decimal.D8 r => 56%N :: uintDigits r
  | Decimal.D9 r => 57%N :: uintDigits r
  end.

Definition decimal (n : Z) : jsstring := uintDigits (N.to_uint (Z.to_N n)).

(** Value of a run of decimal digits. *)
Definition digitsValue (s : jsstring) : Z :=
  fold_left (fun acc c => (acc * 10 + (Z.of_N c - 48))%Z) s 0%Z.

End JsString.
Export JsString.

(* ================================================================== *)
(** * ECMAScript Numbers *)

Module Num.

Local Open Scope Q_scope.

(** A Number is an IEEE 754 binary64 value: not-a-number, an infinity, or a
    finite value given by its sign and its magnitude (so that the two zeros
    are told apart). Magnitudes are exact rationals; every arithmetic
    operation computes its exact result and rounds it with [round64]. *)
Inductive number :=
| NaN
| Inf (neg : bool)
| Fin (neg : bool) (mag : Q).

Definition pow2 (e : Z) : Q := (2 # 1) ^ e.

(** [ilog2 q] is the integer [l] with [2^l <= q < 2^(l+1)], for [q > 0]. *)
Definition ilog2 (q : Q) : Z :=
  let l := (Z.log2 (Qnum q) - Z.log2 (Zpos (Qden q)))%Z in
  if Qle_bool (pow2 l) q then l else (l - 1)%Z.

(** Nearest integer, ties to the even one. *)
Definition rne (x : Q) : Z :=
  let f := Qfloor x in
  match Qcompare (x - inject_Z f) (1 # 2) with
  | Lt => f
  | Gt => (f + 1)%Z
  | Eq => if Z.even f then f else (f + 1)%Z
  end.

(** Exponent of the unit in the last place of a 53-bit significand at [q];
    below [2^-1022] the spacing stays [2^-1074] (subnormal numbers). *)
Definition ulpExp (q : Q) : Z := Z.max (ilog2 q - 52) (-1074).

(** Rounding of an exact magnitude to the nearest multiple of its unit in the
    last place; [None] is overflow. The fraction is read in lowest terms and
    the result is given in lowest terms. *)
Definition roundMag (q : Q) : option Q :=
  let q := Qred q in
  let e := ulpExp q in
  let v := inject_Z (rne (q / pow2 e)) * pow2 e in
  if Qle_bool (pow2 1024) v then None else Some (Qred v).

Definition round64 (neg : bool) (q : Q) : number :=
  match roundMag q with
  | Some m => Fin neg m
  | None => Inf neg
  end.

(** Signed value of a finite number. *)
Definition val (neg : bool) (q : Q) : Q := if neg then - q else q.

(** Rounding of a signed exact result; [zneg] is the sign given to an exact
    zero. *)
Definition ofQ (zneg : bool) (v : Q) : number :=
  match Qcompare v 0 with
  | Eq => Fin zneg 0
  | Lt => round64 true (- v)
  | Gt => round64 false v
  end.

Definition ofZ (z : Z) : number := ofQ false (inject_Z z).

Definition isZero (q : Q) : bool := Qeq_bool q 0.

Definition add (x y : number) : number :=
  match x, y with
  | NaN, _ | _, NaN => NaN
  | Inf a, Inf b => if Bool.eqb a b then Inf a else NaN
  | Inf a, Fin _ _ => Inf a
  | Fin _ _, Inf b => Inf b
  | Fin a p, Fin b q => ofQ (a && b) (val a p + val b q)
  end.

Definition neg (x : number) : number :=
  match x with
  | NaN => NaN
  | Inf a => Inf (negb a)
  | Fin a p => Fin (negb a) p
  end.

Definition sub (x y : number) : number := add x (neg y).

Definition mul (x y : number) : number :=
  match x, y with
  | NaN, _ | _, NaN => NaN
  | Inf a, Inf b => Inf (xorb a b)
  | Inf a, Fin b q => if isZero q then NaN else Inf (xorb a b)
  | Fin a p, Inf b => if isZero p then NaN else Inf (xorb a b)
  | Fin a p, Fin b q => round64 (xorb a b) (p * q)
  end.

Definition div (x y : number) : number :=
  match x, y with
  | NaN, _ | _, NaN => NaN
  | Inf _, Inf _ => NaN
  | Inf a, Fin b _ => Inf (xorb a b)
  | Fin a _, Inf b => Fin (xorb a b) 0
  | Fin a p, Fin b q =>
      if isZero q then (if isZero p then NaN else Inf (xorb a b))
      else round64 (xorb a b) (p / q)
  end.

(** [Math.abs]. *)
Definition abs (x : number) : number :=
  match x with
  | NaN => NaN
  | Inf _ => Inf false
  | Fin _ p => Fin false p
  end.

(** [Math.round]: the integer closest to [x], a tie going to the one closer
    to plus infinity; the sign of [x] is kept on a zero result. *)
Definition round (x : number) : number :=
  match x with
  | Fin a p => Fin a (inject_Z (Z.abs (Qfloor (val a p + (1 # 2)))))
  | _ => x
  end.

(** Comparison; [None] when an operand is NaN. *)
Definition cmp (x y : number) : option comparison :=
  match x, y with
  | NaN, _ | _, NaN => None
  | Inf a, Inf b => Some (if a then (if b then Eq else Lt) else (if b then Gt else Eq))
  | Inf a, Fin _ _ => Some (if a then Lt else Gt)
  | Fin _ _, Inf b => Some (if b then Gt else Lt)
  | Fin a p, Fin b q => Some (Qcompare (val a p) (val b q))
  end.

(** [x > y] and [x === y]. *)
Definition gtb (x y : number) : bool :=
  match cmp x y with Some Gt => true | _ => false end.
Definition strictEq (x y : number) : bool :=
  match cmp x y with Some Eq => true | _ => false end.

Definition isNaN (x : number) : bool :=
  match x with NaN => true | _ => false end.

Definition isFinite (x : number) : bool :=
  match x with Fin _ _ => true | _ => false end.

(** [Boolean(x)]: NaN and the zeros are falsy. *)
Definition truthy (x : number) : bool :=
  match x with
  | NaN => false
  | Inf _ => true
  | Fin _ p => negb (isZero p)
  end.

Definition zero : number := Fin false 0.
Definition hundred : number := Fin false 100.

(** [Number.EPSILON], 2^-52. *)
Definition EPSILON : number := Fin false (1 # 4503599627370496).

(** [x || 0]. *)
Definition orZero (x : number) : number := if truthy x then x else zero.

(** ** Number to string conversion (Number::toString, radix 10) *)

Definition pow10 (e : Z) : Q := (10 # 1) ^ e.

Fixpoint decExpDown (fuel : nat) (n : Z) (q : Q) : Z :=
  match fuel with
  | O => n
  | S f => if Qle_bool (pow10 (n - 1)) q then n else decExpDown f (n - 1) q
  end.

(** The [n] with [10^(n-1) <= q < 10^n], for a binary64 magnitude [q > 0]
    (the least of them is above [10^-324]). *)
Definition decExp (q : Q) : Z :=
  if Qle_bool 1 q then Z.of_nat (List.length (decimal (Qfloor q)))
  else decExpDown 400 0 q.

Definition roundsTo (q v : Q) : bool :=
  match roundMag v with
  | Some m => Qeq_bool m q
  | None => false
  end.

(** The least [k] for which some [k]-digit [s] has [s * 10^(n-k)] round to
    [q], with that [s]: of the candidates the one closest to [q], the even
    one on a tie. Seventeen digits always suffice for a binary64 value. *)
Fixpoint shortest (fuel : nat) (k n : Z) (q : Q) : Z * Z :=
  let u := pow10 (n - k) in
  let lo := Qfloor (q / u) in
  let hi := (lo + 1)%Z in
  let okLo := roundsTo q (inject_Z lo * u) in
  let okHi := roundsTo q (inject_Z hi * u) in
  let nearer :=
    match Qcompare (q - inject_Z lo * u) (inject_Z hi * u - q) with
    | Lt => lo
    | Gt => hi
    | Eq => if Z.even lo then lo else hi
    end in
  if okLo && okHi then (nearer, k)
  else if okLo then (lo, k)
  else if okHi then (hi, k)
  else match fuel with
       | O => (lo, k)
       | S f => shortest f (k + 1) n q
       end.

Definition zeros (n : Z) : jsstring := repeat 48%N (Z.to_nat n).

Definition positiveToString (q : Q) : jsstring :=
  let n0 := decExp q in
  let '(s0, k0) := shortest 16 1 n0 q in
  (* a candidate that reached the next power of ten is the digit 1 *)
  let '(s, k, n) := if (s0 =? 10 ^ k0)%Z then (1%Z, 1%Z, (n0 + 1)%Z) else (s0, k0, n0) in
  let ds := decimal s in
  if ((-5 <=? n) && (n <=? 21))%Z then
    if (k <=? n)%Z then ds ++ zeros (n - k)
    else if (0 <? n)%Z then firstn (Z.to_nat n) ds ++ [46%N] ++ skipn (Z.to_nat n) ds
    else [48%N; 46%N] ++ zeros (- n) ++ ds
  else
    let e := (n - 1)%Z in
    let sign := if (e <? 0)%Z then 45%N else 43%N in
    match ds with
    | [] => []
    | d :: rest =>
        (match rest with [] => [d] | _ => d :: 46%N :: rest end)
        ++ [101%N; sign] ++ decimal (Z.abs e)
    end.

Definition toString (x : number) : jsstring :=
  match x with
  | NaN => lit "NaN"
  | Inf a => (if a then [45%N] else []) ++ lit "Infinity"
  | Fin a p =>
      if isZero p then [48%N]
      else (if a then [45%N] else []) ++ positiveToString p
  end.

(** ** [parseInt(s, 10)] *)

Fixpoint takeWhile (p : N -> bool) (s : jsstring) : jsstring :=
  match s with
  | [] => []
  | c :: s' => if p c then c :: takeWhile p s' else []
  end.

(** Leading white space is skipped, a sign is read, then the longest run of
    digits; no digit gives NaN. The integer read is rounded to the nearest
    Number (beyond twenty digits an engine may approximate it further). *)
Definition parseInt10 (s : jsstring) : number :=
  let s1 := dropWhile isSpace s in
  let '(sgn, s2) :=
    match s1 with
    | 45%N :: r => (true, r)
    | 43%N :: r => (false, r)
    | _ => (false, s1)
    end in
  match takeWhile isDigit s2 with
  | [] => NaN
  | ds => ofQ sgn (val sgn (inject_Z (digitsValue ds)))
  end.

End Num.
Export Num.

(* ================================================================== *)
(** * Regular expressions *)

Module Regex.

(** The fragment of ECMAScript patterns the program uses: a character class,
    a greedy quantifier [{lo,hi}] on a class ([hi = None] for no upper bound),
    concatenation, the greedy optional [?] and a capturing group. *)
Inductive regex :=
| Class (p : N -> bool)
| Repeat (p : N -> bool) (lo : nat) (hi : option nat)
| Seq (r1 r2 : regex)
| Opt (r : regex)
| Group (i : nat) (r : regex).

(** Captures recorded so far, the latest first. *)
Definition captures := list (nat * jsstring).

Fixpoint capture (i : nat) (c : captures) : option jsstring :=
  match c with
  | [] => None
  | (j, s) :: c' => if Nat.eqb i j then Some s else capture i c'
  end.

Section Matcher.

Variable A : Type.

(** Greedy repetition: take one more code unit while allowed and try the
    rest of the pattern; on failure give the code unit back. *)
Fixpoint repeatGreedy (p : N -> bool) (lo : nat) (hi : option nat)
    (s : jsstring) (k : jsstring -> option A) : option A :=
  let stop := match lo with O => k s | S _ => None end in
  match s with
  | [] => stop
  | x :: s' =>
      if p x && match hi with Some O => false | _ => true end
      then match repeatGreedy p (pred lo) (option_map pred hi) s' k with
           | Some res => Some res
           | None => stop
           end
      else stop
  end.

(** Backtracking matcher in continuation-passing style: [rmatch r s c k]
    matches [r] at the start of [s] and hands the rest of the input and the
    captures to [k]; alternatives are tried in the order of the ECMAScript
    semantics and the first success is returned. *)
Fixpoint rmatch (r : regex) (s : jsstring) (c : captures)
    (k : jsstring -> captures -> option A) : option A :=
  match r with
  | Class p =>
      match s with
      | x :: s' => if p x then k s' c else None
      | [] => None
      end
  | Repeat p lo hi => repeatGreedy p lo hi s (fun s' => k s' c)
  | Seq r1 r2 => rmatch r1 s c (fun s1 c1 => rmatch r2 s1 c1 k)
  | Opt r1 =>
      match rmatch r1 s c k with
      | Some res => Some res
      | None => k s c
      end
  | Group i r1 =>
      rmatch r1 s c
        (fun s' c' => k s' ((i, firstn (List.length s - List.length s') s) :: c'))
  end.

End Matcher.

(** A match at the start of [s]: the input left after it and the captures. *)
Definition matchAt (r : regex) (s : jsstring) : option (jsstring * captures) :=
  rmatch r s [] (fun rest c => Some (rest, c)).

(** [RegExp.prototype.exec] without the global flag: the match at the least
    index that has one. The result holds that index and the captures. *)
Fixpoint execFrom (r : regex) (i : nat) (s : jsstring) : option (nat * captures) :=
  match matchAt r s with
  | Some (_, c) => Some (i, c)
  | None =>
      match s with
      | [] => None
      | _ :: s' => execFrom r (S i) s'
      end
  end.

Definition exec (r : regex) (s : jsstring) : option (nat * captures) :=
  execFrom r 0 s.

(** [/^r$/.test(s)]: a match at index 0 that ends at the end of the input. *)
Definition testAnchored (r : regex) (s : jsstring) : bool :=
  match rmatch r s [] (fun rest _ => match rest with [] => Some tt | _ => None end) with
  | Some _ => true
  | None => false
  end.

Definition matchLength (r : regex) (s : jsstring) : option nat :=
  match matchAt r s with
  | Some (rest, _) => Some (List.length s - List.length rest)
  | None => None
  end.

(** [String.prototype.split] with a pattern without groups. [cur] collects
    (reversed) the piece being read; [skip] counts the code units of a
    separator still to pass. An empty match splits only inside a piece. *)
Fixpoint splitLoop (r : regex) (s : jsstring) (skip : nat) (cur : jsstring)
    : list jsstring :=
  match s with
  | [] => [rev cur]
  | x :: s' =>
      match skip with
      | S n => splitLoop r s' n cur
      | O =>
          match matchLength r s with
          | Some (S n) => rev cur :: splitLoop r s' n []
          | Some O =>
              match cur with
              | [] => splitLoop r s' 0 [x]
              | _ => rev cur :: splitLoop r s' 0 [x]
              end
          | None => splitLoop r s' 0 (x :: cur)
          end
      end
  end.

Definition split (r : regex) (s : jsstring) : list jsstring :=
  match s with
  | [] => match matchAt r [] with Some _ => [] | None => [[]] end
  | _ => splitLoop r s 0 []
  end.

End Regex.
Export Regex.

(* ================================================================== *)
(** * The application: [src/App.jsx] *)

Module App.

(** A row of the table, [{name, km}]. *)
Record row := { name : jsstring; km : number }.

(** [/\r?\n/] *)
Definition lineBreak : regex :=
  Seq (Opt (Class (N.eqb 13))) (Class (N.eqb 10)).

(** The class [[A-Za-zÀ-ÿ0-9_\- ]] under the flag [i]. A code unit belongs
    to it when its canonical (upper case) form is that of a member; besides
    the members themselves this adds U+0178, the upper case of [ÿ]. *)
Definition nameChar (c : N) : bool :=
  inRange 65 90 c || inRange 97 122 c || inRange 192 255 c
  || inRange 48 57 c || (c =? 95)%N || (c =? 45)%N || (c =? 32)%N
  || (c =? 376)%N.

(** [[:\-]] *)
Definition separator (c : N) : bool := (c =? 58)%N || (c =? 45)%N.

(** [k] and [m] under the flag [i]. *)
Definition letterK (c : N) : bool := (c =? 107)%N || (c =? 75)%N.
Definition letterM (c : N) : bool := (c =? 109)%N || (c =? 77)%N.

(** [/([A-Za-zÀ-ÿ0-9_\- ]{2,30})\s*[:\-]?\s*(\d{1,6})(?:\s*km)?/i] *)
Definition nameKmRegex : regex :=
  Seq (Group 1 (Repeat nameChar 2 (Some 30)))
  (Seq (Repeat isSpace 0 None)
  (Seq (Opt (Class separator))
  (Seq (Repeat isSpace 0 None)
  (Seq (Group 2 (Repeat isDigit 1 (Some 6)))
       (Opt (Seq (Repeat isSpace 0 None) (Seq (Class letterK) (Class letterM)))))))).

(** [/\s+/] and [/^\d+$/] (the anchors are in [testAnchored]). *)
Definition whitespaceRun : regex := Repeat isSpace 1 None.
Definition digitRun : regex := Repeat isDigit 1 None.

(** The loop [for (let i=0;i<tokens.length-1;i+=2)] of the token parsing. *)
Fixpoint tokenPairs (tokens : list jsstring) : list row :=
  match tokens with
  | maybeName :: t :: rest =>
      let maybeKm := filter isDigit t in      (* t.replace(/\D/g,'') *)
      (if nonEmpty maybeKm && testAnchored digitRun maybeKm
       then [{| name := maybeName; km := parseInt10 maybeKm |}]
       else [])
      ++ tokenPairs rest
  | _ => []
  end.

(** The body of the loop over the lines: the records one line adds to
    [pairs]. [None] stands for the TypeError that [m[1].trim()] would throw
    if group 1 were undefined; an undefined group 2 would be read by
    [parseInt] as NaN. *)
Definition lineRecords (line : jsstring) : option (list row) :=
  match exec nameKmRegex line with
  | Some (_, m) =>
      match capture 1 m with
      | None => None
      | Some m1 =>
          let name := trim m1 in
          let km := match capture 2 m with
                    | Some m2 => parseInt10 m2
                    | None => NaN
                    end in
          Some (if negb (isNaN km) then [{| name := name; km := km |}] else [])
      end
  | None => Some (tokenPairs (split whitespaceRun line))
  end.

Definition lines (text : jsstring) : list jsstring :=
  filter nonEmpty (map trim (split lineBreak text)).

Fixpoint forLines (ls : list jsstring) (pairs : list row) : option (list row) :=
  match ls with
  | [] => Some pairs
  | line :: rest =>
      match lineRecords line with
      | Some rs => forLines rest (pairs ++ rs)
      | None => None
      end
  end.

Definition parseLinesToPairs (text : jsstring) : option (list row) :=
  forLines (lines text) [].

(** [Math.round((x+Number.EPSILON)*100)/100] *)
Definition round2 (x : number) : number :=
  div (round (mul (add x EPSILON) hundred)) hundred.

(** [Number(r.km)||0] *)
Definition kmOf (r : row) : number := orZero (km r).

Definition totalKm (rows : list row) : number :=
  fold_left (fun s r => add s (kmOf r)) rows zero.

(** A computed row, [{...r, pct, euros}]. *)
Record computedRow := { base : row; pct : number; euros : number }.

Definition computed (rows : list row) (amount : number) : list computedRow :=
  map (fun r =>
         let km := kmOf r in
         let pct := if gtb (totalKm rows) zero then div km (totalKm rows) else zero in
         let euros := round2 (mul amount pct) in
         {| base := r; pct := round2 (mul pct hundred); euros := euros |})
      rows.

Definition noPaymentText : jsstring :=
  lit "Geen betaling nodig — bedragen zijn gelijk.".
Definition awaitInputText : jsstring :=
  lit "Voer kilometers in om een samenvatting te krijgen.".
Definition genericText : jsstring :=
  lit "Bekijk de bedragen per persoon. Voor betalingen, vergelijk wie minder heeft bijgedragen en regel onderling de betaling.".

(** The template [`${payer} moet €${x} aan ${payee} betalen.`] *)
Definition payText (payer : jsstring) (x : number) (payee : jsstring) : jsstring :=
  payer ++ lit " moet €" ++ toString x ++ lit " aan " ++ payee ++ lit " betalen.".

(** The text [summary]. With two rows, [computed] has the two elements that
    [const [a,b] = computed] reads. *)
Definition summary (rows : list row) (amount : number) : jsstring :=
  if Nat.eqb (List.length rows) 2 && gtb (totalKm rows) zero then
    match computed rows amount with
    | a :: b :: _ =>
        let diff := round2 (abs (sub (euros a) (euros b))) in
        if strictEq diff zero then noPaymentText
        else if gtb (euros a) (euros b)
        then payText (name (base b)) (round2 (sub (euros a) (euros b))) (name (base a))
        else payText (name (base a)) (round2 (sub (euros b) (euros a))) (name (base b))
    | _ => []
    end
  else
    if strictEq (totalKm rows) zero then awaitInputText else genericText.

(** The text that [copyTikkieText] writes to the clipboard. *)
Definition copyTikkieText (rows : list row) (amount : number) : jsstring :=
  let text := lit "Tankbeurt — totaal €" ++ toString amount ++ [10; 10]%N in
  let text :=
    fold_left
      (fun text c =>
         text ++ name (base c) ++ lit ": " ++ toString (km (base c))
              ++ lit " km — " ++ toString (pct c) ++ lit "% — €"
              ++ toString (euros c) ++ [10%N])
      (computed rows amount) text in
  text ++ [10%N] ++ lit "Samenvatting: " ++ summary rows amount.

End App.
Export App.

(* ================================================================== *)
(** * The words of the specification *)

Module Spec.

(** ** Matching as a relation

    [matches r s c c']: the pattern [r] matches exactly the string [s] and
    takes the captures from [c] to [c']. Unlike [rmatch] it fixes no order
    among the ways to match. *)

Definition within (hi : option nat) (n : nat) : Prop :=
  match hi with Some h => n <= h | None => True end.

Inductive matches : regex -> jsstring -> captures -> captures -> Prop :=
| M_Class p x c : p x = true -> matches (Class p) [x] c c
| M_Repeat p lo hi s c :
    forallb p s = true -> lo <= List.length s -> within hi (List.length s) ->
    matches (Repeat p lo hi) s c c
| M_Seq r1 r2 s1 s2 c c1 c2 :
    matches r1 s1 c c1 -> matches r2 s2 c1 c2 -> matches (Seq r1 r2) (s1 ++ s2) c c2
| M_OptSkip r c : matches (Opt r) [] c c
| M_OptTake r s c c' : matches r s c c' -> matches (Opt r) s c c'
| M_Group i r s c c' : matches r s c c' -> matches (Group i r) s c ((i, s) :: c').

(** ** The primary pattern *)

(** What follows the name in [nameKmRegex]. *)
Definition nameKmTail : regex :=
  Seq (Repeat isSpace 0 None)
  (Seq (Opt (Class separator))
  (Seq (Repeat isSpace 0 None)
  (Seq (Group 2 (Repeat isDigit 1 (Some 6)))
       (Opt (Seq (Repeat isSpace 0 None) (Seq (Class letterK) (Class letterM))))))).

(** [tailPattern digits t]: [t] is white space, an optional separator, white
    space, the run [digits] of one to six digits and an optional unit. *)
Definition tailPattern (digits t : jsstring) : Prop :=
  exists ws1 sep ws2 unit,
    t = ws1 ++ sep ++ ws2 ++ digits ++ unit
    /\ forallb isSpace ws1 = true
    /\ (sep = [] \/ exists x, sep = [x] /\ separator x = true)
    /\ forallb isSpace ws2 = true
    /\ forallb isDigit digits = true
    /\ 1 <= List.length digits <= 6
    /\ (unit = [] \/
        exists ws k m, unit = ws ++ [k; m] /\ forallb isSpace ws = true
                       /\ letterK k = true /\ letterM m = true).

(** [primaryPattern name digits s]: [s] is the name, of 2 to 30 name
    characters, followed by the tail. *)
Definition primaryPattern (name digits s : jsstring) : Prop :=
  exists t,
    s = name ++ t
    /\ forallb nameChar name = true
    /\ 2 <= List.length name <= 30
    /\ tailPattern digits t.

(** Some substring of the line has the form of the primary pattern. *)
Definition hasPrimaryMatch (line : jsstring) : Prop :=
  exists pre mid post name digits,
    line = pre ++ mid ++ post /\ primaryPattern name digits mid.

(** ** Settlement directives and the summary text *)

Inductive directive :=
| NoPaymentNeeded
| PayFromTo (payer payee : jsstring) (amount : number)
| AwaitInput
| GenericAdvice.

Definition sentence (d : directive) : jsstring :=
  match d with
  | NoPaymentNeeded => lit "Geen betaling nodig — bedragen zijn gelijk."
  | PayFromTo payer payee amount =>
      payer ++ lit " moet €" ++ toString amount ++ lit " aan " ++ payee ++ lit " betalen."
  | AwaitInput => lit "Voer kilometers in om een samenvatting te krijgen."
  | GenericAdvice =>
      lit "Bekijk de bedragen per persoon. Voor betalingen, vergelijk wie minder heeft bijgedragen en regel onderling de betaling."
  end.

(** [<name>: <distance> km — <percentage>% — €<amount>], with its line break. *)
Definition shareLine (c : computedRow) : jsstring :=
  name (base c) ++ lit ": " ++ toString (km (base c)) ++ lit " km — "
  ++ toString (pct c) ++ lit "% — €" ++ toString (euros c) ++ [10%N].

(** The layout of the copied text: header, blank line, one line per share,
    blank line, summary. *)
Definition summaryText (total : number) (shares : list computedRow) (d : directive)
    : jsstring :=
  lit "Tankbeurt — totaal €" ++ toString total ++ [10%N] ++ [10%N]
  ++ List.concat (map shareLine shares)
  ++ [10%N] ++ lit "Samenvatting: " ++ sentence d.

(** Sum of Numbers, from the left, starting at 0. *)
Definition sumNumbers (l : list number) : number := fold_left add l zero.

(** Does the text hold a euro sign? *)
Definition hasEuro (s : jsstring) : bool := existsb (N.eqb 8364) s.

(** ** Exact values *)

(** The rational that a finite number stands for (0 for the others). *)
Definition value (x : number) : Q :=
  match x with Fin a p => val a p | _ => 0%Q end.

(** Finite, with a magnitude that is not negative. *)
Definition wf (x : number) : Prop :=
  match x with Fin _ p => (0 <= p)%Q | _ => False end.

(** [r] is within [e] of [v]. *)
Definition near (r v e : Q) : Prop := (v - e <= r <= v + e)%Q.

(** Half a unit in the last place of 1, and half the least positive
    binary64 number. *)
Definition u53 : Q := pow2 (-53).
Definition eta : Q := pow2 (-1075).

Definition tenTo9 : Q := 1000000000%Q.
Definition tenTo10 : Q := 10000000000%Q.

(** Exact sum of the values of a list of numbers. *)
Definition valueSum (l : list number) : Q :=
  fold_right (fun x acc => (value x + acc)%Q) 0%Q l.

Definition zsum (ds : list Z) : Z := fold_right Z.add 0%Z ds.

(** [representable q]: the magnitude [q] is a binary64 value, rounding
    leaves it as it is. *)
Definition representable (q : Q) : Prop :=
  exists r, roundMag q = Some r /\ (r == q)%Q.

(** Rounding to the nearest integer with ties away from zero, and the
    two-decimal rounding built on it as [round2] is built on [Math.round]. *)
Definition roundHalfAway (x : number) : number :=
  match x with
  | Fin a p => Fin a (inject_Z (Qfloor (p + (1 # 2))%Q))
  | _ => x
  end.

Definition round2HalfAway (x : number) : number :=
  div (roundHalfAway (mul (add x EPSILON) hundred)) hundred.

(** ** Rows used in examples *)

Definition exampleRows : list row :=
  [ {| name := lit "A"; km := ofZ 150 |}; {| name := lit "B"; km := ofZ 50 |} ].

Definition equalRows : list row :=
  [ {| name := lit "A"; km := ofZ 100 |}; {| name := lit "B"; km := ofZ 100 |} ].

Definition threeRows : list row :=
  [ {| name := lit "A"; km := ofZ 10 |}; {| name := lit "B"; km := ofZ 20 |};
    {| name := lit "C"; km := ofZ 30 |} ].

Definition twoRows : list row :=
  [ {| name := lit "A"; km := ofZ 1 |}; {| name := lit "B"; km := ofZ 2 |} ].

End Spec.
Export Spec.

(* ================================================================== *)
(** * The Standard Library's IEEE 754 arithmetic, for comparison *)

Module Ieee.

Import SpecFloat.

(** The Number that a binary64 value of [SpecFloat] denotes. *)
Definition ofSpec (f : spec_float) : number :=
  match f with
  | S754_zero s => Fin s 0
  | S754_infinity s => Inf s
  | S754_nan => NaN
  | S754_finite s m e => Fin s (Qred (inject_Z (Zpos m) * pow2 e))
  end.

(** The binary64 value nearest to [m * 2^e]. *)
Definition binary64 (m e : Z) : spec_float := binary_normalize 53 1024 m e false.

Definition sameNumber (x y : number) : bool :=
  match x, y with
  | NaN, NaN => true
  | Inf a, Inf b => Bool.eqb a b
  | Fin a p, Fin b q => Bool.eqb a b && Qeq_bool p q
  | _, _ => false
  end.

(** Both zeros, both infinities, not-a-number, 1, 100, -4.125, 2^-52
    (EPSILON), 0.1, 10^17, the largest finite value and a subnormal one. *)
Definition samples : list spec_float :=
  let one := binary64 1 0 in
  [ S754_zero false; S754_zero true; S754_infinity false; S754_infinity true;
    S754_nan; one; binary64 100 0; binary64 (-33) (-3);
    binary64 1 (-52); SFdiv 53 1024 one (binary64 10 0);
    binary64 (10 ^ 17) 0; binary64 (2 ^ 53 - 1) 971; binary64 3 (-1074) ].

(** [op] and [sop] give the same Number on every pair of samples. *)
Definition agree (op : number -> number -> number)
    (sop : spec_float -> spec_float -> spec_float) : bool :=
  forallb (fun a => forallb (fun b =>
     sameNumber (op (ofSpec a) (ofSpec b)) (ofSpec (sop a b))) samples) samples.

End Ieee.

(* ================================================================== *)
(** * Facts *)

Unset Implicit Arguments.

Ltac inv H := inversion H; subst; clear H.

(** Turns a hypothesis on [Qcompare] into the order it states. *)
Ltac qcmp H :=
  first [ apply (proj2 (Qeq_alt _ _)) in H
        | apply (proj2 (Qlt_alt _ _)) in H
        | apply (proj2 (Qgt_alt _ _)) in H ].

(* ------------------------------------------------------------------ *)
(** ** The backtracking matcher against the match relation *)

Section MatcherFacts.
Variable A : Type.

Lemma repeatGreedy_sound p s : forall lo hi (k : jsstring -> option A) res,
  repeatGreedy p lo hi s k = Some res ->
  exists s1 s2, s = s1 ++ s2 /\ forallb p s1 = true /\ lo <= List.length s1
                /\ within hi (List.length s1) /\ k s2 = Some res.
Proof.
  induction s as [|x s IH]; intros lo hi k res H; simpl in H.
  - destruct lo; [|discriminate].
    exists [], []. repeat split; auto. destruct hi; simpl; lia.
  - assert (Hstop : match lo with O => k (x :: s) | S _ => None end = Some res ->
       exists s1 s2, x :: s = s1 ++ s2 /\ forallb p s1 = true /\ lo <= List.length s1
                /\ within hi (List.length s1) /\ k s2 = Some res).
    { intros E. destruct lo; [|discriminate].
      exists [], (x :: s). repeat split; auto. destruct hi; simpl; lia. }
    destruct (p x && match hi with Some 0 => false | _ => true end) eqn:G; [|auto].
    destruct (repeatGreedy p (pred lo) (option_map pred hi) s k) eqn:E; [|auto].
    inversion H; subst a. apply andb_prop in G as [Gp Gh].
    apply IH in E as (s1 & s2 & -> & F & L & W & K).
    exists (x :: s1), s2. simpl. rewrite Gp, F. repeat split; auto.
    + lia.
    + destruct hi as [[|h]|]; simpl in *; try discriminate; auto. lia.
Qed.

Lemma repeatGreedy_complete p s : forall lo hi (k : jsstring -> option A),
  repeatGreedy p lo hi s k = None ->
  forall s1 s2, s = s1 ++ s2 -> forallb p s1 = true -> lo <= List.length s1 ->
                within hi (List.length s1) -> k s2 = None.
Proof.
  induction s as [|x s IH]; intros lo hi k H s1 s2 E F L W; simpl in H.
  - symmetry in E. apply app_eq_nil in E as [-> ->]. simpl in L.
    destruct lo; [auto|lia].
  - destruct s1 as [|y s1]; simpl in *.
    + subst s2. destruct lo; [|lia].
      destruct (p x && _); auto.
      destruct (repeatGreedy _ _ _ _ _); auto; discriminate.
    + inversion E; subst y s. apply andb_prop in F as [Fx F].
      rewrite Fx in H. simpl in H.
      destruct hi as [[|h]|]; simpl in *; try lia.
      * destruct (repeatGreedy p (pred lo) (Some h) (s1 ++ s2) k) eqn:R; [discriminate|].
        eapply IH; eauto; simpl; lia.
      * destruct (repeatGreedy p (pred lo) None (s1 ++ s2) k) eqn:R; [discriminate|].
        eapply IH; eauto; simpl; lia.
Qed.

Lemma rmatch_sound r : forall s c (k : jsstring -> captures -> option A) res,
  rmatch r s c k = Some res ->
  exists s1 s2 c', s = s1 ++ s2 /\ matches r s1 c c' /\ k s2 c' = Some res.
Proof.
  induction r as [p|p lo hi|r1 IH1 r2 IH2|r1 IH1|i r1 IH1]; intros s c k res H; simpl in H.
  - destruct s as [|x s]; [discriminate|]. destruct (p x) eqn:P; [|discriminate].
    exists [x], s, c. repeat split; auto. now constructor.
  - apply repeatGreedy_sound in H as (s1 & s2 & -> & F & L & W & K).
    exists s1, s2, c. repeat split; auto. now constructor.
  - apply IH1 in H as (s1 & s2 & c1 & -> & M1 & H).
    apply IH2 in H as (s3 & s4 & c2 & -> & M2 & K).
    exists (s1 ++ s3), s4, c2. rewrite app_assoc. repeat split; auto.
    econstructor; eauto.
  - destruct (rmatch r1 s c k) eqn:E.
    + inversion H; subst a. apply IH1 in E as (s1 & s2 & c' & -> & M & K).
      exists s1, s2, c'. repeat split; auto. now constructor.
    + exists [], s, c. repeat split; auto. constructor.
  - apply IH1 in H as (s1 & s2 & c' & -> & M & K).
    rewrite length_app, Nat.add_sub, firstn_app, Nat.sub_diag, firstn_all in K.
    simpl in K. rewrite app_nil_r in K.
    exists s1, s2, ((i, s1) :: c'). repeat split; auto. now constructor.
Qed.

Lemma rmatch_complete r : forall s c (k : jsstring -> captures -> option A),
  rmatch r s c k = None ->
  forall s1 s2 c', s = s1 ++ s2 -> matches r s1 c c' -> k s2 c' = None.
Proof.
  induction r as [p|p lo hi|r1 IH1 r2 IH2|r1 IH1|i r1 IH1];
    intros s c k H s1 s2 c' E M; simpl in H; inversion M; subst; simpl in *.
  - rewrite H1 in H. auto.
  - eapply repeatGreedy_complete with (k := fun s' => k s' c') in H; eauto.
  - rewrite <- app_assoc in H.
    eapply IH1 in H; [|reflexivity|eassumption].
    eapply IH2 in H; eauto.
  - destruct (rmatch r1 s2 c' k); [discriminate|auto].
  - destruct (rmatch r1 (s1 ++ s2) c k) eqn:R; [discriminate|].
    eapply IH1 in R; eauto.
  - eapply IH1 in H; [|reflexivity|eassumption]. simpl in H.
    rewrite length_app, Nat.add_sub, firstn_app, Nat.sub_diag, firstn_all in H.
    simpl in H. rewrite app_nil_r in H. auto.
Qed.

End MatcherFacts.

Section Greedy.
Variable A : Type.

Lemma repeatGreedy_longest p s : forall lo hi (k : jsstring -> option A) res,
  repeatGreedy p lo hi s k = Some res ->
  exists s1 s2,
    s = s1 ++ s2 /\ forallb p s1 = true /\ lo <= List.length s1
    /\ within hi (List.length s1) /\ k s2 = Some res
    /\ forall t1 t2, s = t1 ++ t2 -> forallb p t1 = true -> within hi (List.length t1) ->
                     List.length s1 < List.length t1 -> k t2 = None.
Proof.
  induction s as [|x s IH]; intros lo hi k res H; simpl in H.
  - destruct lo; [|discriminate].
    exists [], []. repeat split; auto; [destruct hi; simpl; lia|].
    intros t1 t2 E _ _ L. symmetry in E. apply app_eq_nil in E as [-> _]. simpl in L. lia.
  - assert (Hstop : match lo with O => k (x :: s) | S _ => None end = Some res ->
        (lo = 0 -> forall t1 t2, x :: s = t1 ++ t2 -> forallb p t1 = true ->
                       within hi (List.length t1) -> 0 < List.length t1 -> k t2 = None) ->
       exists s1 s2, x :: s = s1 ++ s2 /\ forallb p s1 = true /\ lo <= List.length s1
         /\ within hi (List.length s1) /\ k s2 = Some res
         /\ forall t1 t2, x :: s = t1 ++ t2 -> forallb p t1 = true ->
                          within hi (List.length t1) ->
                          List.length s1 < List.length t1 -> k t2 = None).
    { intros E N. destruct lo; [|discriminate]. specialize (N eq_refl).
      exists [], (x :: s). repeat split; auto. destruct hi; simpl; lia. }
    destruct (p x && match hi with Some 0 => false | _ => true end) eqn:G.
    + destruct (repeatGreedy p (pred lo) (option_map pred hi) s k) eqn:E.
      * inversion H; subst a. apply andb_prop in G as [Gp Gh].
        apply IH in E as (s1 & s2 & -> & F & L & W & K & Lg).
        exists (x :: s1), s2. simpl. rewrite Gp, F. repeat split; auto.
        -- lia.
        -- destruct hi as [[|h]|]; simpl in *; try discriminate; auto. lia.
        -- intros [|y t1] t2 E' F' W' L'; simpl in *; [lia|].
           inversion E'; subst y. apply andb_prop in F' as [_ F'].
           apply (Lg t1 t2).
           ++ assumption.
           ++ assumption.
           ++ destruct hi as [[|h]|]; simpl in *; auto; lia.
           ++ lia.
      * apply Hstop; [exact H|]. intros ->.
        intros [|y t1] t2 E' F' W' L'; simpl in *; [lia|].
        inversion E'; subst y. apply andb_prop in F' as [_ F'].
        eapply repeatGreedy_complete; [exact E|eassumption|exact F'|lia|].
        destruct hi as [[|h]|]; simpl in *; auto; lia.
    + apply Hstop; [exact H|]. intros _.
      intros [|y t1] t2 E' F' W' L'; simpl in *; [lia|].
      inversion E'; subst y. apply andb_prop in F' as [Fx _].
      rewrite Fx in G. simpl in G. destruct hi as [[|h]|]; simpl in *; try discriminate. lia.
Qed.

End Greedy.

Lemma matchAt_sound r s rest c :
  matchAt r s = Some (rest, c) -> exists mid, s = mid ++ rest /\ matches r mid [] c.
Proof.
  unfold matchAt. intros H. apply rmatch_sound in H as (s1 & s2 & c' & -> & M & K).
  inversion K; subst. eauto.
Qed.

Lemma matchAt_complete r s :
  matchAt r s = None -> forall mid rest c, s = mid ++ rest -> ~ matches r mid [] c.
Proof.
  unfold matchAt. intros H mid rest c E M.
  eapply rmatch_complete in H; eauto. discriminate.
Qed.

(** A pattern that starts with a captured repetition takes the longest
    repetition after which the rest of the pattern matches. *)
Lemma matchAt_greedy i p lo hi rest s post c :
  matchAt (Seq (Group i (Repeat p lo hi)) rest) s = Some (post, c) ->
  exists s1 mid,
    s = s1 ++ mid ++ post
    /\ forallb p s1 = true /\ lo <= List.length s1 /\ within hi (List.length s1)
    /\ matches rest mid [(i, s1)] c
    /\ forall t1 mid' post' c',
         s = t1 ++ mid' ++ post' -> forallb p t1 = true ->
         within hi (List.length t1) -> matches rest mid' [(i, t1)] c' ->
         List.length t1 <= List.length s1.
Proof.
  unfold matchAt. cbn [rmatch]. intros H.
  apply repeatGreedy_longest in H as (s1 & s2 & -> & F & L & W & K & Lg).
  rewrite length_app, Nat.add_sub, firstn_app, Nat.sub_diag, firstn_all in K.
  simpl in K. rewrite app_nil_r in K.
  apply rmatch_sound in K as (mid & post0 & c0 & -> & M & K).
  inversion K; subst post0 c0.
  exists s1, mid. repeat split; auto.
  intros t1 mid' post' c' E Ft Wt Mt.
  destruct (le_lt_dec (List.length t1) (List.length s1)) as [Le|Lt]; [exact Le|exfalso].
  specialize (Lg t1 (mid' ++ post') E Ft Wt Lt). cbv beta in Lg.
  rewrite E, length_app, Nat.add_sub, firstn_app, Nat.sub_diag, firstn_all in Lg.
  simpl in Lg. rewrite app_nil_r in Lg.
  eapply rmatch_complete in Lg; [|reflexivity|exact Mt]. discriminate.
Qed.

Lemma execFrom_spec r s : forall i j c,
  execFrom r i s = Some (j, c) ->
  exists pre rest post,
    s = pre ++ rest /\ j = i + List.length pre /\ matchAt r rest = Some (post, c)
    /\ forall pre' mid' post' c',
         s = pre' ++ mid' ++ post' -> matches r mid' [] c' ->
         List.length pre <= List.length pre'.
Proof.
  induction s as [|x s IH]; intros i j c H; simpl in H.
  - destruct (matchAt r []) as [[post c0]|] eqn:E; [|discriminate].
    inversion H; subst. exists [], [], post. simpl. repeat split; auto; lia.
  - destruct (matchAt r (x :: s)) as [[post c0]|] eqn:E.
    + inversion H; subst. exists [], (x :: s), post. simpl. repeat split; auto; lia.
    + apply IH in H as (pre & rest & post & -> & -> & M & L).
      exists (x :: pre), rest, post. simpl. repeat split; auto; try lia.
      intros [|y pre'] mid' post' c' E' M'; simpl in *.
      * exfalso. eapply matchAt_complete; eauto.
      * inversion E'; subst. apply le_n_S. eapply L; eauto.
Qed.

Lemma execFrom_complete r s : forall i,
  execFrom r i s = None ->
  forall pre mid post c, s = pre ++ mid ++ post -> ~ matches r mid [] c.
Proof.
  induction s as [|x s IH]; intros i H pre mid post c E M; simpl in H.
  - destruct (matchAt r []) as [[rest c0]|] eqn:R; [discriminate|].
    symmetry in E. apply app_eq_nil in E as [-> E].
    eapply matchAt_complete; eauto.
  - destruct (matchAt r (x :: s)) as [[rest c0]|] eqn:R; [discriminate|].
    destruct pre as [|y pre]; simpl in E.
    + eapply matchAt_complete; eauto.
    + inversion E; subst. eapply IH; eauto.
Qed.

(* ------------------------------------------------------------------ *)
(** ** The primary pattern and the parser *)

Lemma matches_Class_inv p s c c' :
  matches (Class p) s c c' -> c' = c /\ exists x, s = [x] /\ p x = true.
Proof. intros M; inv M; eauto. Qed.

Lemma matches_Repeat_inv p lo hi s c c' :
  matches (Repeat p lo hi) s c c' ->
  c' = c /\ forallb p s = true /\ lo <= List.length s /\ within hi (List.length s).
Proof. intros M; inv M; auto. Qed.

Lemma matches_Seq_inv r1 r2 s c c2 :
  matches (Seq r1 r2) s c c2 ->
  exists s1 s2 c1, s = s1 ++ s2 /\ matches r1 s1 c c1 /\ matches r2 s2 c1 c2.
Proof. intros M; inv M; eauto 7. Qed.

Lemma matches_Opt_inv r s c c' :
  matches (Opt r) s c c' -> (s = [] /\ c' = c) \/ matches r s c c'.
Proof. intros M; inv M; auto. Qed.

Lemma matches_Group_inv i r s c c' :
  matches (Group i r) s c c' -> exists c0, c' = (i, s) :: c0 /\ matches r s c c0.
Proof. intros M; inv M; eauto. Qed.

Lemma nameKmRegex_parts :
  nameKmRegex = Seq (Group 1 (Repeat nameChar 2 (Some 30))) nameKmTail.
Proof. reflexivity. Qed.

Lemma matches_tail t c0 c :
  matches nameKmTail t c0 c <->
  exists digits, tailPattern digits t /\ c = (2, digits) :: c0.
Proof.
  unfold nameKmTail. split.
  - intros M.
    apply matches_Seq_inv in M as (ws1 & t2 & c2 & -> & M1 & M).
    apply matches_Repeat_inv in M1 as (-> & F1 & _ & _).
    apply matches_Seq_inv in M as (sep & t3 & c3 & -> & Ms & M).
    apply matches_Seq_inv in M as (ws2 & t4 & c4 & -> & M2 & M).
    apply matches_Repeat_inv in M2 as (-> & F2 & _ & _).
    apply matches_Seq_inv in M as (digits & unit & c5 & -> & Md & Mu).
    apply matches_Group_inv in Md as (c6 & -> & Md).
    apply matches_Repeat_inv in Md as (-> & Fd & Ld & Wd).
    assert (Hsep : c3 = c0 /\
                   (sep = [] \/ exists x, sep = [x] /\ separator x = true)).
    { apply matches_Opt_inv in Ms as [[-> ->]|Ms]; [auto|].
      apply matches_Class_inv in Ms as (-> & x & -> & Hx). eauto. }
    destruct Hsep as [-> Hsep].
    assert (Hunit : c = (2, digits) :: c0 /\
                    (unit = [] \/
                     exists ws k m, unit = ws ++ [k; m] /\ forallb isSpace ws = true
                                    /\ letterK k = true /\ letterM m = true)).
    { apply matches_Opt_inv in Mu as [[-> ->]|Mu]; [auto|].
      apply matches_Seq_inv in Mu as (ws & t5 & c7 & -> & Mw & Mu).
      apply matches_Repeat_inv in Mw as (-> & Fw & _ & _).
      apply matches_Seq_inv in Mu as (k & m & c8 & -> & Mk & Mm).
      apply matches_Class_inv in Mk as (-> & x & -> & Hx).
      apply matches_Class_inv in Mm as (-> & y & -> & Hy).
      split; [reflexivity|]. right. exists ws, x, y. auto. }
    destruct Hunit as [-> Hunit].
    exists digits. split; [|reflexivity].
    exists ws1, sep, ws2, unit. simpl in Wd. repeat split; auto.
  - intros (digits & (ws1 & sep & ws2 & unit & -> & F1 & Hs & F2 & Fd & Ld & Hu) & ->).
    eapply M_Seq. { constructor; simpl; auto; lia. }
    eapply M_Seq. { destruct Hs as [->|(x & -> & Hx)]; [constructor|]. apply M_OptTake. now constructor. }
    eapply M_Seq. { constructor; simpl; auto; lia. }
    eapply M_Seq. { apply M_Group. constructor; simpl; auto; lia. }
    destruct Hu as [->|(ws & k & m & -> & Fw & Hk & Hm)]; [constructor|].
    apply M_OptTake. eapply M_Seq. { constructor; simpl; auto; lia. }
    change [k; m] with ([k] ++ [m]). eapply M_Seq; now constructor.
Qed.

Lemma matches_nameKm s c :
  matches nameKmRegex s [] c <->
  exists name digits, primaryPattern name digits s /\ c = [(2, digits); (1, name)].
Proof.
  rewrite nameKmRegex_parts. split.
  - intros M.
    apply matches_Seq_inv in M as (name & t & c1 & -> & Mn & Mt).
    apply matches_Group_inv in Mn as (c0 & -> & Mn).
    apply matches_Repeat_inv in Mn as (-> & Fn & Ln & Wn).
    apply matches_tail in Mt as (digits & Pt & ->).
    exists name, digits. split; [|reflexivity].
    exists t. simpl in Wn. repeat split; auto.
  - intros (name & digits & (t & -> & Fn & Ln & Pt) & ->).
    eapply M_Seq.
    + apply M_Group. constructor; simpl; auto; lia.
    + apply matches_tail. eauto.
Qed.

Lemma isDigit_cases x :
  isDigit x = true ->
  In x [48; 49; 50; 51; 52; 53; 54; 55; 56; 57]%N.
Proof.
  unfold isDigit, inRange. intros H. apply andb_prop in H as [H1 H2].
  apply N.leb_le in H1, H2. simpl.
  assert (x = 48 \/ x = 49 \/ x = 50 \/ x = 51 \/ x = 52 \/ x = 53 \/ x = 54
          \/ x = 55 \/ x = 56 \/ x = 57)%N by lia.
  intuition.
Qed.

Lemma takeWhile_all p s : forallb p s = true -> takeWhile p s = s.
Proof.
  induction s as [|x s IH]; simpl; [reflexivity|].
  intros H. apply andb_prop in H as [-> H]. now rewrite IH.
Qed.

Lemma parseInt10_digits ds :
  forallb isDigit ds = true -> ds <> [] ->
  parseInt10 ds = ofZ (digitsValue ds).
Proof.
  destruct ds as [|x ds]; [congruence|]. intros F _.
  simpl in F. apply andb_prop in F as [Fx F].
  apply isDigit_cases in Fx. unfold parseInt10, ofZ.
  simpl in Fx.
  repeat (destruct Fx as [<-|Fx];
          [cbn -[digitsValue ofQ inject_Z]; rewrite (takeWhile_all _ _ F); reflexivity|]).
  contradiction.
Qed.

Lemma ofQ_not_NaN z v : isNaN (ofQ z v) = false.
Proof.
  unfold ofQ, round64. destruct (Qcompare v 0); auto; destruct (roundMag _); auto.
Qed.

(** The record that the primary path emits: the leftmost match, and at that
    index the longest name. *)
Lemma lineRecords_primary line i c :
  exec nameKmRegex line = Some (i, c) ->
  exists pre mid post name digits,
    line = pre ++ mid ++ post /\ i = List.length pre
    /\ primaryPattern name digits mid
    /\ (forall pre' mid' post' name' digits',
          line = pre' ++ mid' ++ post' -> primaryPattern name' digits' mid' ->
          List.length pre <= List.length pre')
    /\ (forall mid' post' name' digits',
          mid ++ post = mid' ++ post' -> primaryPattern name' digits' mid' ->
          List.length name' <= List.length name)
    /\ lineRecords line = Some [{| name := trim name; km := ofZ (digitsValue digits) |}].
Proof.
  intros E. unfold lineRecords. rewrite E.
  apply execFrom_spec in E as (pre & rest & post & -> & -> & M & L).
  rewrite nameKmRegex_parts in M.
  apply matchAt_greedy in M as (name & t & -> & Fn & Ln & Wn & Mt & G).
  apply matches_tail in Mt as (digits & Pt & ->).
  exists pre, (name ++ t), post, name, digits.
  assert (P : primaryPattern name digits (name ++ t)).
  { exists t. simpl in Wn. repeat split; auto. }
  repeat split; auto.
  - now rewrite <- app_assoc.
  - intros pre' mid' post' name' digits' E' P'.
    eapply L; [eassumption|]. apply matches_nameKm. eauto.
  - intros mid' post' name' digits' E' (t' & -> & Fn' & Ln' & Pt').
    apply (G name' t' post' ((2, digits') :: [(1, name')])).
    + now rewrite <- !app_assoc in *.
    + assumption.
    + simpl. lia.
    + apply matches_tail. eauto.
  - simpl. destruct Pt as (ws1 & sep & ws2 & unit & _ & _ & _ & _ & Fd & Ld & _).
    rewrite parseInt10_digits; auto.
    + unfold ofZ. now rewrite ofQ_not_NaN.
    + destruct digits; simpl in *; [lia|discriminate].
Qed.

Lemma exec_none_iff line :
  exec nameKmRegex line = None <-> ~ hasPrimaryMatch line.
Proof.
  split.
  - intros E (pre & mid & post & name & digits & -> & P).
    eapply execFrom_complete; [exact E|reflexivity|].
    apply matches_nameKm. eauto.
  - intros N. destruct (exec nameKmRegex line) as [[i c]|] eqn:E; [|reflexivity].
    exfalso. apply N. apply lineRecords_primary in E
      as (pre & mid & post & name & digits & -> & _ & P & _).
    exists pre, mid, post, name, digits. auto.
Qed.

Lemma lineRecords_fallback line :
  ~ hasPrimaryMatch line ->
  lineRecords line = Some (tokenPairs (split whitespaceRun line)).
Proof.
  intros N. apply exec_none_iff in N. unfold lineRecords. now rewrite N.
Qed.

Lemma lineRecords_total line : exists rs, lineRecords line = Some rs.
Proof.
  destruct (exec nameKmRegex line) as [[i c]|] eqn:E.
  - apply lineRecords_primary in E as (? & ? & ? & ? & ? & _ & _ & _ & _ & _ & ->). eauto.
  - unfold lineRecords. rewrite E. eauto.
Qed.

Lemma forLines_total ls : forall acc, exists rows, forLines ls acc = Some rows.
Proof.
  induction ls as [|l ls IH]; intros acc; simpl; [eauto|].
  destruct (lineRecords_total l) as [rs ->]. apply IH.
Qed.

Lemma forLines_nothing ls :
  (forall line, In line ls -> lineRecords line = Some []) ->
  forall acc, forLines ls acc = Some acc.
Proof.
  induction ls as [|l ls IH]; intros H acc; simpl; [reflexivity|].
  rewrite (H l) by (now left). rewrite app_nil_r. apply IH.
  intros line I. apply H. now right.
Qed.

(** After the non-digits are stripped the test [/^\d+$/] adds nothing. *)
Lemma testAnchored_digits ds :
  forallb isDigit ds = true -> ds <> [] -> testAnchored digitRun ds = true.
Proof.
  intros F N. unfold testAnchored, digitRun.
  destruct (rmatch _ _ _ _) eqn:R; [reflexivity|].
  eapply rmatch_complete with (s1 := ds) (s2 := []) in R.
  - discriminate.
  - now rewrite app_nil_r.
  - constructor; simpl; auto. destruct ds; simpl; [congruence|lia].
Qed.

Lemma forallb_filter (p : N -> bool) s : forallb p (filter p s) = true.
Proof.
  induction s as [|x s IH]; simpl; [reflexivity|].
  destruct (p x) eqn:E; simpl; [rewrite E|]; auto.
Qed.

(** The token pairing: tokens 0-1, 2-3, ... give a record when the second
    one holds a digit; a last unpaired token is dropped. *)
Lemma tokenPairs_pair maybeName t rest :
  tokenPairs (maybeName :: t :: rest) =
  (if nonEmpty (filter isDigit t)
   then [{| name := maybeName; km := ofZ (digitsValue (filter isDigit t)) |}]
   else []) ++ tokenPairs rest.
Proof.
  simpl. destruct (filter isDigit t) as [|d ds] eqn:E; simpl; [reflexivity|].
  rewrite <- E.
  assert (N : filter isDigit t <> []) by (rewrite E; discriminate).
  rewrite testAnchored_digits, parseInt10_digits; auto using forallb_filter.
Qed.

Lemma tokenPairs_single t : tokenPairs [t] = [].
Proof. reflexivity. Qed.

(** C1. What [parseLinesToPairs] returns on the three lines that its comment
    names. ["Pieter: 100 km"] gives Pieter and 100. On ["Jan 150"] and
    ["Anna - 75"] the name class, which holds digits, spaces and hyphens,
    takes all but the last digit: the records are ["Jan 15"] with 0 and
    ["Anna - 7"] with 5, not Jan with 150 and Anna with 75. *)
Theorem parse_primary_examples :
  parseLinesToPairs (lit "Jan 150")
    = Some [{| name := lit "Jan 15"; km := ofZ 0 |}]
  /\ parseLinesToPairs (lit "Pieter: 100 km")
    = Some [{| name := lit "Pieter"; km := ofZ 100 |}]
  /\ parseLinesToPairs (lit "Anna - 75")
    = Some [{| name := lit "Anna - 7"; km := ofZ 5 |}].
Proof. repeat split; vm_compute; reflexivity. Qed.

(** C2. On ["Jan 150 Pieter 100"] the primary pattern matches (the name
    takes ["Jan 150 Pieter 10"], the distance is 0), so the token pairing
    that the comment in the code gives this line to never runs; run on this
    line, the token pairing would give Jan with 150 and Pieter with 100. *)
Theorem parse_token_example :
  parseLinesToPairs (lit "Jan 150 Pieter 100")
    = Some [{| name := lit "Jan 150 Pieter 10"; km := ofZ 0 |}]
  /\ exec nameKmRegex (lit "Jan 150 Pieter 100") <> None
  /\ tokenPairs (split whitespaceRun (lit "Jan 150 Pieter 100"))
    = [{| name := lit "Jan"; km := ofZ 150 |}; {| name := lit "Pieter"; km := ofZ 100 |}].
Proof. repeat split; vm_compute; try reflexivity; discriminate. Qed.

(** C9. [parseLinesToPairs] returns a list of records for every text, it
    never raises the TypeError that [lineRecords] models; the empty text
    gives no record, and so does every text none of whose lines has a match
    of the primary pattern or a token pair with a digit. *)
Theorem parse_total text :
  (exists rows, parseLinesToPairs text = Some rows)
  /\ parseLinesToPairs [] = Some []
  /\ ((forall line, In line (lines text) ->
         ~ hasPrimaryMatch line /\ tokenPairs (split whitespaceRun line) = []) ->
      parseLinesToPairs text = Some []).
Proof.
  split; [apply forLines_total|]. split; [reflexivity|].
  intros H. unfold parseLinesToPairs. apply forLines_nothing.
  intros line I. destruct (H line I) as [N T].
  rewrite (lineRecords_fallback line N). now rewrite T.
Qed.

(** A text without any digit is such a text. *)
Lemma parse_total_witness :
  (forall line, In line (lines (lit "hello, world")) ->
     ~ hasPrimaryMatch line /\ tokenPairs (split whitespaceRun line) = [])
  /\ parseLinesToPairs (lit "hello, world") = Some [].
Proof.
  assert (H : forall line, In line (lines (lit "hello, world")) ->
     ~ hasPrimaryMatch line /\ tokenPairs (split whitespaceRun line) = []).
  { intros line I. vm_compute in I. destruct I as [<-|[]].
    split; [apply exec_none_iff|]; vm_compute; reflexivity. }
  split; [exact H|].
  exact (proj2 (proj2 (parse_total (lit "hello, world"))) H).
Defined.

(** C10. The primary pattern is searched for in the line: when some
    substring of the line has its form, the line gives exactly one record,
    read from the match that starts leftmost and, there, has the longest
    name; what comes before and after the match is ignored. When no
    substring has the form, the line goes to the token pairing. Since digits
    are name characters the name takes digits of the distance: ["Jan 150"]
    gives ["Jan 15"] with 0, and a line with two pairs gives one record. *)
Theorem primary_pattern_search line :
  (hasPrimaryMatch line ->
     exists pre mid post name digits,
       line = pre ++ mid ++ post
       /\ primaryPattern name digits mid
       /\ (forall pre' mid' post' name' digits',
             line = pre' ++ mid' ++ post' -> primaryPattern name' digits' mid' ->
             List.length pre <= List.length pre')
       /\ (forall mid' post' name' digits',
             mid ++ post = mid' ++ post' -> primaryPattern name' digits' mid' ->
             List.length name' <= List.length name)
       /\ lineRecords line
          = Some [{| name := trim name; km := ofZ (digitsValue digits) |}])
  /\ (~ hasPrimaryMatch line ->
      lineRecords line = Some (tokenPairs (split whitespaceRun line)))
  /\ lineRecords (lit "Jan 150") = Some [{| name := lit "Jan 15"; km := ofZ 0 |}]
  /\ lineRecords (lit "km: Jan 12, Piet 34!")
     = Some [{| name := lit "Jan 1"; km := ofZ 2 |}].
Proof.
  split; [|split; [apply lineRecords_fallback|split; vm_compute; reflexivity]].
  intros H. destruct (exec nameKmRegex line) as [[i c]|] eqn:E.
  - apply lineRecords_primary in E
      as (pre & mid & post & name & digits & E1 & _ & P & L & G & R).
    exists pre, mid, post, name, digits. auto.
  - exfalso. apply exec_none_iff in E. contradiction.
Qed.

(** The line "Jan 150" has a substring of the pattern's form: "Jan 15"
    followed by the digit 0. *)
Lemma primary_pattern_search_witness :
  hasPrimaryMatch (lit "Jan 150")
  /\ exists name digits,
       lineRecords (lit "Jan 150")
       = Some [{| name := trim name; km := ofZ (digitsValue digits) |}].
Proof.
  assert (H : hasPrimaryMatch (lit "Jan 150")).
  { exists [], (lit "Jan 150"), [], (lit "Jan 15"), (lit "0").
    split; [vm_compute; reflexivity|].
    exists (lit "0").
    split; [vm_compute; reflexivity|]. split; [vm_compute; reflexivity|].
    split; [cbn; lia|].
    exists [], [], [], [].
    split; [vm_compute; reflexivity|]. split; [reflexivity|].
    split; [now left|]. split; [reflexivity|]. split; [vm_compute; reflexivity|].
    split; [cbn; lia|]. now left. }
  split; [exact H|].
  destruct (proj1 (primary_pattern_search (lit "Jan 150")) H)
    as (pre & mid & post & name & digits & _ & _ & _ & _ & R).
  exists name, digits. exact R.
Defined.

(* ------------------------------------------------------------------ *)
(** ** Rounding to binary64 *)

Section Rounding.

Local Open Scope Q_scope.

(** ** Powers of two *)

Lemma pow2_pos e : 0 < pow2 e.
Proof. apply Qpower_0_lt. reflexivity. Qed.

Lemma pow2_add a b : pow2 (a + b) == pow2 a * pow2 b.
Proof. apply Qpower_plus. discriminate. Qed.

Lemma pow2_le a b : (a <= b)%Z -> pow2 a <= pow2 b.
Proof. intros H. apply Qpower_le_compat_l; [assumption|discriminate]. Qed.

Lemma pow2_Z e : (0 <= e)%Z -> pow2 e == inject_Z (2 ^ e).
Proof. intros H. unfold pow2. now rewrite Zpower_Qpower. Qed.

Lemma pow2_sub a b : pow2 (a - b) == pow2 a / pow2 b.
Proof.
  unfold Z.sub. rewrite pow2_add. unfold pow2 at 2. rewrite Qpower_opp.
  reflexivity.
Qed.

(** ** ilog2 *)

Lemma Zlog2_bounds n : (0 < n)%Z -> (2 ^ Z.log2 n <= n < 2 ^ (Z.log2 n + 1))%Z.
Proof. intros H. replace (Z.log2 n + 1)%Z with (Z.succ (Z.log2 n)) by lia. now apply Z.log2_spec. Qed.

Lemma ilog2_spec q : 0 < q -> pow2 (ilog2 q) <= q < pow2 (ilog2 q + 1).
Proof.
  intros Hq. destruct q as [n d]. unfold ilog2. cbn [Qnum Qden].
  assert (Hn : (0 < n)%Z).
  { unfold Qlt in Hq. simpl in Hq. lia. }
  set (a := Z.log2 n). set (b := Z.log2 (Zpos d)).
  assert (Ha : (0 <= a)%Z) by apply Z.log2_nonneg.
  assert (Hb : (0 <= b)%Z) by apply Z.log2_nonneg.
  destruct (Zlog2_bounds n Hn) as [A1 A2]. fold a in A1, A2.
  destruct (Zlog2_bounds (Zpos d) eq_refl) as [B1 B2]. fold b in B1, B2.
  assert (E : n # d == inject_Z n / inject_Z (Zpos d)) by apply Qmake_Qdiv.
  assert (Dp : 0 < inject_Z (Zpos d)) by reflexivity.
  (* bounds in Q *)
  assert (QA1 : pow2 a <= inject_Z n) by (rewrite pow2_Z by lia; now rewrite <- Zle_Qle).
  assert (QA2 : inject_Z n < pow2 (a + 1)) by (rewrite pow2_Z by lia; now rewrite <- Zlt_Qlt).
  assert (QB1 : pow2 b <= inject_Z (Zpos d)) by (rewrite pow2_Z by lia; now rewrite <- Zle_Qle).
  assert (QB2 : inject_Z (Zpos d) < pow2 (b + 1)) by (rewrite pow2_Z by lia; now rewrite <- Zlt_Qlt).
  assert (Lo : pow2 (a - b - 1) <= n # d).
  { rewrite E. apply Qle_shift_div_l; [assumption|].
    apply Qle_trans with (pow2 (a - b - 1) * pow2 (b + 1)).
    - apply Qmult_le_l; [apply pow2_pos|]. now apply Qlt_le_weak.
    - rewrite <- pow2_add. replace (a - b - 1 + (b + 1))%Z with a by lia. assumption. }
  assert (Hi : n # d < pow2 (a - b + 1)).
  { rewrite E. apply Qlt_shift_div_r; [assumption|].
    apply Qlt_le_trans with (pow2 (a + 1)); [assumption|].
    apply Qle_trans with (pow2 (a - b + 1) * pow2 b).
    - rewrite <- pow2_add. replace (a - b + 1 + b)%Z with (a + 1)%Z by lia. apply Qle_refl.
    - apply Qmult_le_l; [apply pow2_pos|]. assumption. }
  destruct (Qle_bool (pow2 (a - b)) (n # d)) eqn:C.
  - apply Qle_bool_iff in C. split; assumption.
  - assert (C' : n # d < pow2 (a - b)).
    { apply Qnot_le_lt. intros X. apply Qle_bool_iff in X. congruence. }
    split; [assumption|]. now replace (a - b - 1 + 1)%Z with (a - b)%Z by lia.
Qed.

Lemma ilog2_mono p q : 0 < p -> p <= q -> (ilog2 p <= ilog2 q)%Z.
Proof.
  intros Hp H.
  assert (Hq : 0 < q) by (eapply Qlt_le_trans; eassumption).
  destruct (ilog2_spec p Hp) as [L _]. destruct (ilog2_spec q Hq) as [_ U].
  assert (ilog2 p < ilog2 q + 1)%Z; [|lia].
  apply Qpower_lt_compat_l_inv with (q := 2#1); [|reflexivity].
  eapply Qle_lt_trans; [eassumption|]. eapply Qle_lt_trans; eassumption.
Qed.

(** ** rne *)

Lemma rne_bounds x : inject_Z (rne x) - (1#2) <= x <= inject_Z (rne x) + (1#2).
Proof.
  unfold rne. pose proof (Qfloor_le x) as L. pose proof (Qlt_floor x) as U.
  rewrite inject_Z_plus in U. change (inject_Z 1) with 1 in U.
  destruct (Qcompare (x - inject_Z (Qfloor x)) (1#2)) eqn:C.
  - qcmp C. destruct (Z.even (Qfloor x)).
    + lra.
    + rewrite inject_Z_plus. change (inject_Z 1) with 1. lra.
  - qcmp C. lra.
  - qcmp C. rewrite inject_Z_plus. change (inject_Z 1) with 1. lra.
Qed.

Lemma rne_comp x y : x == y -> rne x = rne y.
Proof.
  intros E. unfold rne. rewrite (Qfloor_comp _ _ E).
  assert (C : Qcompare (x - inject_Z (Qfloor y)) (1#2)
              = Qcompare (y - inject_Z (Qfloor y)) (1#2)).
  { apply Qcompare_comp; [|reflexivity]. rewrite E. reflexivity. }
  now rewrite C.
Qed.

Lemma rne_Z n : rne (inject_Z n) = n.
Proof.
  unfold rne. rewrite Qfloor_Z.
  replace (Qcompare (inject_Z n - inject_Z n) (1#2)) with Lt; [reflexivity|].
  symmetry. apply (proj1 (Qlt_alt _ _)). generalize (inject_Z n). intros z. lra.
Qed.

Lemma rne_mono x y : x <= y -> (rne x <= rne y)%Z.
Proof.
  intros H. pose proof (Qfloor_resp_le _ _ H) as F.
  unfold rne.
  pose proof (Qfloor_le x) as Lx. pose proof (Qlt_floor x) as Ux.
  pose proof (Qfloor_le y) as Ly. pose proof (Qlt_floor y) as Uy.
  rewrite inject_Z_plus in Ux, Uy. change (inject_Z 1) with 1 in Ux, Uy.
  destruct (Z.eq_dec (Qfloor x) (Qfloor y)) as [E|NE].
  - rewrite E in *.
    destruct (Qcompare (x - inject_Z (Qfloor y)) (1#2)) eqn:Cx;
    destruct (Qcompare (y - inject_Z (Qfloor y)) (1#2)) eqn:Cy;
    qcmp Cx; qcmp Cy;
    try (destruct (Z.even (Qfloor y))); try lia; exfalso; lra.
  - assert (Qfloor x + 1 <= Qfloor y)%Z by lia.
    destruct (Qcompare (x - inject_Z (Qfloor x)) (1#2));
    destruct (Qcompare (y - inject_Z (Qfloor y)) (1#2));
    try (destruct (Z.even (Qfloor x))); try (destruct (Z.even (Qfloor y))); lia.
Qed.

Lemma rne_nonneg x : 0 <= x -> (0 <= rne x)%Z.
Proof. intros H. rewrite <- (rne_Z 0). now apply rne_mono. Qed.

Lemma roundMag_comp p q : p == q -> roundMag p = roundMag q.
Proof. intros E. unfold roundMag. now rewrite (Qred_complete _ _ E). Qed.

Lemma roundMag_unfold q r :
  roundMag q = Some r ->
  r == inject_Z (rne (Qred q / pow2 (ulpExp (Qred q)))) * pow2 (ulpExp (Qred q))
  /\ r < pow2 1024.
Proof.
  unfold roundMag. cbv zeta.
  set (v := inject_Z (rne (Qred q / pow2 (ulpExp (Qred q)))) * pow2 (ulpExp (Qred q))).
  destruct (Qle_bool _ _) eqn:C; [discriminate|]. intros H.
  assert (E : r = Qred v) by congruence. clear H.
  assert (E' : r == v) by (rewrite E; apply Qred_correct).
  split; [exact E'|].
  apply Qnot_le_lt. intros X. rewrite E' in X.
  apply Qle_bool_iff in X. congruence.
Qed.

Lemma ulpExp_bound q : 0 < q -> pow2 (ulpExp q) <= q * pow2 (-52) + pow2 (-1074).
Proof.
  intros Hq. unfold ulpExp. destruct (ilog2_spec q Hq) as [L _].
  pose proof (pow2_pos (-1074)) as P1. pose proof (pow2_pos (-52)) as P2.
  destruct (Z.max_spec (ilog2 q - 52) (-1074)) as [[_ ->]|[_ ->]].
  - set (a := pow2 (-52)) in *. set (b := pow2 (-1074)) in *. clearbody a b. nra.
  - replace (ilog2 q - 52)%Z with (ilog2 q + (-52))%Z by lia. rewrite pow2_add.
    set (a := pow2 (-52)) in *. set (b := pow2 (-1074)) in *.
    set (c := pow2 (ilog2 q)) in *. clearbody a b c. nra.
Qed.

Lemma roundMag_zero q : q == 0 -> roundMag q = Some 0.
Proof. intros E. rewrite (roundMag_comp _ _ E). reflexivity. Qed.

Lemma Qdiv_pow2_nonneg q e : 0 <= q -> 0 <= q / pow2 e.
Proof.
  intros H. apply Qle_shift_div_l; [apply pow2_pos|]. lra.
Qed.

Lemma roundMag_err q r :
  0 <= q -> roundMag q = Some r ->
  0 <= r /\ - (q * pow2 (-53) + pow2 (-1075)) <= r - q <= q * pow2 (-53) + pow2 (-1075).
Proof.
  intros Hq H. apply roundMag_unfold in H as [E _].
  pose proof (Qred_correct q) as Eq. set (q' := Qred q) in *.
  assert (Hq' : 0 <= q') by (rewrite Eq; assumption).
  set (e := ulpExp q') in *.
  pose proof (pow2_pos e) as Pe.
  pose proof (rne_bounds (q' / pow2 e)) as [B1 B2].
  pose proof (rne_nonneg _ (Qdiv_pow2_nonneg _ e Hq')) as N.
  set (m := rne (q' / pow2 e)) in *.
  assert (Hm : 0 <= inject_Z m) by (change 0 with (inject_Z 0); now rewrite <- Zle_Qle).
  assert (D : q' / pow2 e * pow2 e == q') by (field; lra).
  assert (P53 : pow2 (-53) * 2 == pow2 (-52)) by reflexivity.
  assert (P75 : pow2 (-1075) * 2 == pow2 (-1074)) by reflexivity.
  split; [rewrite E; nra|].
  destruct (Qlt_le_dec 0 q') as [Pos|Z0].
  - pose proof (ulpExp_bound _ Pos) as U. fold e in U.
    rewrite E, <- Eq. split; nra.
  - assert (Z1 : q' == 0) by lra.
    assert (M0 : m = 0%Z).
    { unfold m. rewrite (rne_comp _ (inject_Z 0)); [apply rne_Z|].
      rewrite Z1. unfold Qdiv. ring. }
    pose proof (pow2_pos (-53)). pose proof (pow2_pos (-1075)).
    rewrite E, M0, <- Eq, Z1. split; change (inject_Z 0) with 0; nra.
Qed.

Lemma pow2_1023_headroom :
  pow2 1023 + (pow2 1023 * pow2 (-53) + pow2 (-1075)) < pow2 1024.
Proof. reflexivity. Qed.

Lemma roundMag_finite q :
  0 <= q -> q <= pow2 1023 -> exists r, roundMag q = Some r.
Proof.
  intros Hq B. destruct (roundMag q) as [r|] eqn:R; [eauto|exfalso].
  unfold roundMag in R. cbv zeta in R.
  destruct (Qle_bool _ _) eqn:C; [|discriminate].
  apply Qle_bool_iff in C.
  (* the rounded value is within the error bound of q *)
  pose proof (Qred_correct q) as Eq. set (q' := Qred q) in *.
  assert (Hq' : 0 <= q') by (rewrite Eq; assumption).
  set (e := ulpExp q') in *.
  pose proof (pow2_pos e) as Pe.
  pose proof (rne_bounds (q' / pow2 e)) as [B1 B2].
  set (m := rne (q' / pow2 e)) in *.
  assert (D : q' / pow2 e * pow2 e == q') by (field; lra).
  assert (P53 : pow2 (-53) * 2 == pow2 (-52)) by reflexivity.
  assert (P75 : pow2 (-1075) * 2 == pow2 (-1074)) by reflexivity.
  pose proof pow2_1023_headroom as HR.
  pose proof (pow2_pos (-53)). 
  destruct (Qlt_le_dec 0 q') as [Pos|Z0].
  - pose proof (ulpExp_bound _ Pos) as U. fold e in U.
    rewrite Eq in U. nra.
  - assert (Z1 : q' == 0) by lra.
    assert (M0 : m = 0%Z).
    { unfold m. rewrite (rne_comp _ (inject_Z 0)); [apply rne_Z|].
      rewrite Z1. unfold Qdiv. ring. }
    rewrite M0 in C. change (inject_Z 0) with 0 in C.
    pose proof (pow2_pos 1024). nra.
Qed.

Lemma Qred_inject_Z n : Qred (inject_Z n) = inject_Z n.
Proof.
  unfold Qred, inject_Z.
  pose proof (Z.ggcd_gcd n 1) as G. pose proof (Z.ggcd_correct_divisors n 1) as D.
  destruct (Z.ggcd n 1) as [g [a b]]. simpl in *.
  rewrite Z.gcd_1_r in G. subst g. destruct D as [D1 D2].
  rewrite Z.mul_1_l in D1, D2. subst. reflexivity.
Qed.

Lemma roundMag_exact q k t :
  0 < q -> q == inject_Z k * pow2 t -> (ulpExp (Qred q) <= t)%Z -> q < pow2 1024 ->
  roundMag q = Some (Qred q).
Proof.
  intros Hq E Ht B. unfold roundMag. cbv zeta.
  pose proof (Qred_correct q) as Eq. set (q' := Qred q) in *.
  set (e := ulpExp q') in *.
  pose proof (pow2_pos e) as Pe.
  assert (X : q' / pow2 e == inject_Z (k * 2 ^ (t - e))).
  { rewrite Eq, E, inject_Z_mult, <- pow2_Z by lia.
    rewrite pow2_sub. field. lra. }
  rewrite (rne_comp _ _ X), rne_Z.
  assert (V : inject_Z (k * 2 ^ (t - e)) * pow2 e == q').
  { rewrite <- X. field. lra. }
  destruct (Qle_bool _ _) eqn:C.
  - apply Qle_bool_iff in C. rewrite V, Eq in C. lra.
  - f_equal. unfold q'. rewrite <- (Qred_complete _ _ Eq). apply Qred_complete. exact V.
Qed.

Lemma roundMag_int n :
  (0 <= n < 2 ^ 53)%Z -> roundMag (inject_Z n) = Some (inject_Z n).
Proof.
  intros [L U]. destruct (Z.eq_dec n 0) as [->|NZ]; [reflexivity|].
  assert (Hq : 0 < inject_Z n) by (change 0 with (inject_Z 0); rewrite <- Zlt_Qlt; lia).
  rewrite <- (Qred_inject_Z n) at 2.
  apply roundMag_exact with (k := n) (t := 0%Z).
  - assumption.
  - change (pow2 0) with 1. ring.
  - rewrite Qred_inject_Z. unfold ulpExp.
    assert (ilog2 (inject_Z n) < 53)%Z; [|lia].
    destruct (ilog2_spec _ Hq) as [Lo _].
    apply Qpower_lt_compat_l_inv with (q := 2#1); [|reflexivity].
    eapply Qle_lt_trans; [exact Lo|].
    change ((2#1)^53) with (inject_Z (2^53)). rewrite <- Zlt_Qlt. assumption.
  - apply Qlt_trans with (inject_Z (2^53)); [rewrite <- Zlt_Qlt; assumption|reflexivity].
Qed.

Lemma Qdiv_pow2_le p q e : p <= q -> p / pow2 e <= q / pow2 e.
Proof.
  intros H. pose proof (pow2_pos e) as Pe.
  apply Qle_shift_div_l; [assumption|].
  assert (D : p / pow2 e * pow2 e == p) by (field; lra). lra.
Qed.

Lemma roundMag_mono p q a b :
  0 < p -> p <= q -> roundMag p = Some a -> roundMag q = Some b -> a <= b.
Proof.
  intros Hp H Ra Rb.
  apply roundMag_unfold in Ra as [Ea _]. apply roundMag_unfold in Rb as [Eb _].
  pose proof (Qred_correct p) as Cp. pose proof (Qred_correct q) as Cq.
  set (p' := Qred p) in *. set (q' := Qred q) in *.
  assert (Hp' : 0 < p') by (rewrite Cp; assumption).
  assert (H' : p' <= q') by (rewrite Cp, Cq; assumption).
  assert (Hq' : 0 < q') by lra.
  pose proof (ilog2_mono _ _ Hp' H') as LM.
  destruct (ilog2_spec _ Hp') as [_ Up]. destruct (ilog2_spec _ Hq') as [Lq _].
  unfold ulpExp in *.
  set (lp := ilog2 p') in *. set (lq := ilog2 q') in *.
  set (ep := Z.max (lp - 52) (-1074)) in *. set (eq := Z.max (lq - 52) (-1074)) in *.
  pose proof (pow2_pos ep) as Pp. pose proof (pow2_pos eq) as Pq.
  rewrite Ea, Eb.
  destruct (Z.eq_dec ep eq) as [E|NE].
  - rewrite E in *. apply Qmult_le_compat_r; [|lra].
    rewrite <- Zle_Qle. apply rne_mono. now apply Qdiv_pow2_le.
  - assert (Elq : eq = (lq - 52)%Z) by lia.
    assert (Llt : (lp + 1 <= lq)%Z) by lia.
    pose proof (pow2_le _ _ Llt) as PL.
    apply Qle_trans with (pow2 lq).
    + (* a <= 2^lq *)
      assert (X : p' / pow2 ep <= inject_Z (2 ^ (lq - ep))).
      { rewrite <- pow2_Z by lia. rewrite pow2_sub.
        apply Qdiv_pow2_le. lra. }
      apply rne_mono in X. rewrite rne_Z in X. rewrite Zle_Qle in X.
      rewrite <- pow2_Z in X by lia. rewrite pow2_sub in X.
      assert (D : pow2 lq / pow2 ep * pow2 ep == pow2 lq) by (field; lra).
      rewrite <- D. apply Qmult_le_compat_r; [assumption|lra].
    + assert (X : inject_Z (2 ^ 52) <= q' / pow2 eq).
      { rewrite <- pow2_Z by lia. replace 52%Z with (lq - eq)%Z by lia.
        rewrite pow2_sub. apply Qdiv_pow2_le. assumption. }
      apply rne_mono in X. rewrite rne_Z in X. rewrite Zle_Qle in X.
      rewrite <- pow2_Z in X by lia.
      assert (D : pow2 52 * pow2 eq == pow2 lq).
      { rewrite <- pow2_add. now replace (52 + eq)%Z with lq by lia. }
      rewrite <- D. apply Qmult_le_compat_r; [assumption|lra].
Qed.

(** ** Values of numbers *)

Lemma u53_pos : 0 < u53.
Proof. apply pow2_pos. Qed.

Lemma eta_pos : 0 < eta.
Proof. apply pow2_pos. Qed.

Ltac errs :=
  pose proof u53_pos; pose proof eta_pos;
  set (uu := u53) in *; set (ee := eta) in *; clearbody uu ee.

Lemma round64_err s q B :
  0 <= q -> q <= B -> B <= pow2 1023 ->
  wf (round64 s q) /\ near (value (round64 s q)) (val s q) (B * u53 + eta).
Proof.
  intros Hq HB HB'. unfold round64.
  destruct (roundMag_finite q) as [r R]; [assumption|lra|].
  rewrite R. destruct (roundMag_err _ _ Hq R) as [Hr [E1 E2]].
  fold u53 eta in E1, E2.
  cbn [wf value]. split; [assumption|]. unfold near. errs.
  assert (q * uu <= B * uu) by (apply Qmult_le_compat_r; lra).
  destruct s; cbn [val]; split; lra.
Qed.

Lemma ofQ_err z v B :
  - B <= v <= B -> B <= pow2 1023 ->
  wf (ofQ z v) /\ near (value (ofQ z v)) v (B * u53 + eta).
Proof.
  intros [L U] HB. unfold ofQ.
  destruct (Qcompare v 0) eqn:C; qcmp C.
  - cbn [wf value]. split; [lra|]. unfold near. errs.
    assert (0 <= B * uu) by (apply Qmult_le_0_compat; lra).
    destruct z; cbn [val]; lra.
  - destruct (round64_err true (- v) B) as [W N]; try lra.
    split; [assumption|]. unfold near in *. cbn [val] in N. lra.
  - destruct (round64_err false v B) as [W N]; try lra.
    split; [assumption|]. exact N.
Qed.

Lemma val_mul a p b q : val (xorb a b) (p * q) == val a p * val b q.
Proof. destruct a, b; cbn [val xorb]; ring. Qed.

Lemma val_div a p b q : ~ q == 0 -> val (xorb a b) (p / q) == val a p / val b q.
Proof. intros H. destruct a, b; cbn [val xorb]; field; lra. Qed.

Lemma val_abs a p : 0 <= p -> Qabs (val a p) == p.
Proof.
  intros H. destruct a; cbn [val].
  - rewrite Qabs_opp. now apply Qabs_pos.
  - now apply Qabs_pos.
Qed.

Lemma isZero_false q : isZero q = false <-> ~ q == 0.
Proof.
  unfold isZero. split.
  - intros H E. apply Qeq_bool_iff in E. congruence.
  - intros H. destruct (Qeq_bool q 0) eqn:E; [|reflexivity].
    apply Qeq_bool_iff in E. contradiction.
Qed.

Lemma mul_err x y B :
  wf x -> wf y -> Qabs (value x * value y) <= B -> B <= pow2 1023 ->
  wf (mul x y) /\ near (value (mul x y)) (value x * value y) (B * u53 + eta).
Proof.
  destruct x as [| |a p], y as [| |b q]; cbn [wf value mul div add]; try contradiction.
  intros Hp Hq HB HB'.
  assert (Hpq : 0 <= p * q) by (apply Qmult_le_0_compat; assumption).
  rewrite <- val_mul, val_abs in HB by assumption.
  destruct (round64_err (xorb a b) (p * q) B) as [W N]; auto.
  split; [exact W|]. unfold near in *. rewrite <- val_mul. exact N.
Qed.

Lemma div_err x y B :
  wf x -> wf y -> ~ value y == 0 -> Qabs (value x / value y) <= B -> B <= pow2 1023 ->
  wf (div x y) /\ near (value (div x y)) (value x / value y) (B * u53 + eta).
Proof.
  destruct x as [| |a p], y as [| |b q]; cbn [wf value mul div add]; try contradiction.
  intros Hp Hq NZ HB HB'.
  assert (NZ' : ~ q == 0) by (destruct b; cbn [val] in NZ; lra).
  rewrite (proj2 (isZero_false q) NZ').
  assert (Hpq : 0 <= p / q) by (apply Qle_shift_div_l; lra).
  rewrite <- val_div, val_abs in HB by assumption.
  destruct (round64_err (xorb a b) (p / q) B) as [W N]; auto.
  split; [exact W|]. unfold near in *. rewrite <- val_div by assumption. exact N.
Qed.

Lemma add_err x y B :
  wf x -> wf y -> Qabs (value x + value y) <= B -> B <= pow2 1023 ->
  wf (add x y) /\ near (value (add x y)) (value x + value y) (B * u53 + eta).
Proof.
  destruct x as [| |a p], y as [| |b q]; cbn [wf value mul div add]; try contradiction.
  intros Hp Hq HB HB'. apply ofQ_err; [|assumption].
  apply Qabs_Qle_condition. assumption.
Qed.

Lemma round_val x :
  wf x -> wf (round x) /\ value (round x) == inject_Z (Qfloor (value x + (1#2))).
Proof.
  destruct x as [| |a p]; cbn [wf value round]; try contradiction. intros Hp.
  split.
  - change 0 with (inject_Z 0). rewrite <- Zle_Qle. apply Z.abs_nonneg.
  - destruct a; cbn [val].
    + assert (F : (Qfloor (- p + (1#2)) <= 0)%Z).
      { change 0%Z with (Qfloor (1#2)). apply Qfloor_resp_le. lra. }
      rewrite Z.abs_neq by assumption. rewrite inject_Z_opp. ring.
    + assert (F : (0 <= Qfloor (p + (1#2)))%Z).
      { change 0%Z with (Qfloor (1#2)). apply Qfloor_resp_le. lra. }
      rewrite Z.abs_eq by assumption. reflexivity.
Qed.

Lemma round64_comp s p q : p == q -> round64 s p = round64 s q.
Proof. intros E. unfold round64. now rewrite (roundMag_comp _ _ E). Qed.

Lemma ofQ_comp z v w : v == w -> ofQ z v = ofQ z w.
Proof.
  intros E. unfold ofQ.
  assert (C : Qcompare v 0 = Qcompare w 0) by (apply Qcompare_comp; [exact E|reflexivity]).
  rewrite C. destruct (Qcompare w 0); auto; apply round64_comp; now rewrite E.
Qed.

Lemma mul_comm x y : mul x y = mul y x.
Proof.
  destruct x as [|a|a p], y as [|b|b q]; cbn [mul]; try reflexivity;
    rewrite (xorb_comm a b); try reflexivity.
  apply round64_comp. ring.
Qed.

(** [x * 0] for a finite [x] is a zero. *)
Lemma mul_zero_r a p : mul (Fin a p) zero = Fin a 0.
Proof.
  unfold zero. cbn [mul]. rewrite xorb_false_r. unfold round64.
  rewrite (roundMag_zero (p * 0)) by ring. reflexivity.
Qed.

Lemma round2_of_zero a : round2 (Fin a 0) = zero.
Proof. destruct a; reflexivity. Qed.

Lemma round2_zero_hundred : round2 (mul zero hundred) = zero.
Proof. reflexivity. Qed.

(** ** Comparisons *)

Lemma strictEq_gtb x y : strictEq x y = true -> gtb x y = false.
Proof. unfold strictEq, gtb. destruct (cmp x y) as [[]|]; congruence. Qed.

Lemma gtb_strictEq x y : gtb x y = true -> strictEq x y = false.
Proof. unfold strictEq, gtb. destruct (cmp x y) as [[]|]; congruence. Qed.





(* ------------------------------------------------------------------ *)
(** ** The error of [round2] and of the shares *)

Lemma eta_small : eta <= 1 # 1000000000000000000000000000000.
Proof. unfold eta. unfold Qle. vm_compute. discriminate. Qed.

Ltac lit_u := change u53 with (1 # 9007199254740992) in *.

Lemma wf_EPSILON : wf EPSILON.
Proof. discriminate. Qed.

Lemma wf_hundred : wf hundred.
Proof. discriminate. Qed.

Lemma pow2_1023_big : tenTo10 * 1000 <= pow2 1023.
Proof. unfold Qle. vm_compute. discriminate. Qed.

Lemma abs_le x B : - B <= x <= B -> Qabs x <= B.
Proof. intros H. now apply Qabs_Qle_condition. Qed.

Lemma abs_le_inv x B : Qabs x <= B -> - B <= x <= B.
Proof. intros H. now apply Qabs_Qle_condition. Qed.

(** The steps of [round2] on a finite number of moderate size. *)
Lemma round2_steps x B :
  wf x -> Qabs (value x) <= B -> B <= tenTo10 ->
  let z := mul (add x EPSILON) hundred in
  let k := Qfloor (value z + (1 # 2)) in
  wf z
  /\ near (value z) (100 * value x) (1 # 1000)
  /\ wf (round2 x)
  /\ value (round z) == inject_Z k
  /\ near (value (round2 x)) (inject_Z k / 100) (1 # 100000).
Proof.
  intros Wx Hx HB z k. apply abs_le_inv in Hx.
  pose proof pow2_1023_big as Big. unfold tenTo10 in *.
  pose proof eta_pos as E0. pose proof eta_small as E1.
  (* y = x + EPSILON *)
  destruct (add_err x EPSILON (B + 1)) as [Wy Ny];
    [assumption|apply wf_EPSILON| |lra|].
  { apply abs_le. change (value EPSILON) with (1 # 4503599627370496). lra. }
  change (value EPSILON) with (1 # 4503599627370496) in Ny.
  set (y := add x EPSILON) in *.
  unfold near in Ny. lit_u.
  (* z = y * 100 *)
  destruct (mul_err y hundred (100 * (B + 2))) as [Wz Nz];
    [assumption|apply wf_hundred| |lra|].
  { apply abs_le. change (value hundred) with 100. lra. }
  change (value hundred) with 100 in Nz. fold z in Wz, Nz.
  unfold near in Nz. lit_u.
  (* k = floor (z + 1/2) *)
  destruct (round_val z Wz) as [Wk Vk]. fold k in Vk.
  pose proof (Qfloor_le (value z + (1#2))) as K1.
  pose proof (Qlt_floor (value z + (1#2))) as K2. fold k in K1, K2.
  rewrite inject_Z_plus in K2. change (inject_Z 1) with 1 in K2.
  (* w = k / 100 *)
  destruct (div_err (round z) hundred (B + 1)) as [Ww Nw];
    [assumption|apply wf_hundred|discriminate| |lra|].
  { apply abs_le. change (value hundred) with 100. rewrite Vk.
    split.
    - apply Qle_shift_div_l; [reflexivity|]. lra.
    - apply Qle_shift_div_r; [reflexivity|]. lra. }
  change (value hundred) with 100 in Nw. lit_u.
  unfold near in Nw.
  assert (Vk' : value (round z) / 100 == inject_Z k / 100) by (now rewrite Vk).
  rewrite Vk' in Nw.
  split; [assumption|]. unfold near.
  split; [lra|]. split; [exact Ww|]. split; [exact Vk|].
  change (div (round z) hundred) with (round2 x) in Nw. lra.
Qed.

Lemma round2_near x B :
  wf x -> Qabs (value x) <= B -> B <= tenTo10 ->
  wf (round2 x) /\ near (value (round2 x)) (value x) ((1 # 200) + (1 # 50000)).
Proof.
  intros Wx Hx HB.
  destruct (round2_steps x B Wx Hx HB) as (_ & Nz & Ww & _ & Nw).
  split; [exact Ww|].
  pose proof (Qfloor_le (value (mul (add x EPSILON) hundred) + (1#2))) as K1.
  pose proof (Qlt_floor (value (mul (add x EPSILON) hundred) + (1#2))) as K2.
  rewrite inject_Z_plus in K2. change (inject_Z 1) with 1 in K2.
  cbv zeta in Nw. unfold near in *.
  set (k := inject_Z (Qfloor (value (mul (add x EPSILON) hundred) + (1#2)))) in *.
  clearbody k.
  assert (D : k / 100 == k * (1 # 100)) by (field; discriminate).
  rewrite D in Nw. lra.
Qed.

Lemma mul_close a p r A e :
  - A <= a <= A -> near p r e -> near (a * p) (a * r) (A * e).
Proof.
  unfold near. intros [A1 A2] [P1 P2].
  destruct (Qlt_le_dec a 0) as [N|N]; split; nra.
Qed.

(** One share: the rounded amount is within a cent of the exact share. *)
Lemma share_near amount s d t :
  wf amount -> Qabs (value amount) <= tenTo9 ->
  0 <= d -> d <= t -> 0 < t ->
  wf (round2 (mul amount (div (Fin s d) (Fin false t))))
  /\ near (value (round2 (mul amount (div (Fin s d) (Fin false t)))))
          (value amount * (val s d / t)) (1 # 100).
Proof.
  intros Wa Ha Hd Hdt Ht. unfold tenTo9 in *.
  pose proof pow2_1023_big as Big. unfold tenTo10 in Big.
  pose proof eta_pos as E0. pose proof eta_small as E1.
  assert (Hq : - (1) <= val s d / t <= 1).
  { assert (0 <= d / t <= 1).
    { split; [apply Qle_shift_div_l; lra|apply Qle_shift_div_r; lra]. }
    destruct s; cbn [val].
    - setoid_replace (- d / t) with (- (d / t)) by (field; lra). lra.
    - lra. }
  (* the fraction *)
  destruct (div_err (Fin s d) (Fin false t) 1) as [Wp Np].
  { exact Hd. } { cbn [wf]. lra. } { cbn [value val]. lra. }
  { apply abs_le. cbn [value val]. exact Hq. } { lra. }
  cbn [value val] in Np. set (p := div (Fin s d) (Fin false t)) in *.
  unfold near in Np. lit_u.
  set (r := val s d / t) in *. clearbody r.
  apply abs_le_inv in Ha.
  (* the product *)
  pose proof (mul_close (value amount) (value p) r 1000000000
                ((1 # 9007199254740992) + eta) Ha) as Mc.
  unfold near in Mc. specialize (Mc ltac:(lra)).
  assert (AR : - (1000000000) <= value amount * r <= 1000000000).
  { destruct Ha as [Ha1 Ha2]. destruct Hq as [Hq1 Hq2].
    set (a := value amount) in *. clearbody a. split; nra. }
  destruct (mul_err amount p 2000000000) as [Wx Nx]; [assumption|assumption| |lra|].
  { apply abs_le. lra. }
  unfold near in Nx. lit_u.
  set (x := mul amount p) in *.
  destruct (round2_near x 2000000001) as [Wr Nr]; [assumption| |unfold tenTo10; lra|].
  { apply abs_le. lra. }
  split; [exact Wr|]. unfold near in *. lra.
Qed.

(** ** Whole distances and their total *)

Lemma ofZ_int d : (0 <= d < 2 ^ 53)%Z -> ofZ d = Fin false (inject_Z d).
Proof.
  intros [L U]. unfold ofZ, ofQ.
  destruct (Qcompare (inject_Z d) 0) eqn:C; qcmp C.
  - change 0 with (inject_Z 0) in C. apply (proj1 (inject_Z_injective _ _)) in C. now subst d.
  - exfalso. change 0 with (inject_Z 0) in C. rewrite <- Zlt_Qlt in C. lia.
  - unfold round64. rewrite roundMag_int by lia. reflexivity.
Qed.

Lemma orZero_int d : orZero (Fin false (inject_Z d)) = Fin false (inject_Z d).
Proof.
  unfold orZero, truthy. destruct (isZero (inject_Z d)) eqn:Z; [|reflexivity].
  cbn [negb]. unfold isZero in Z. apply Qeq_bool_iff in Z.
  change 0 with (inject_Z 0) in Z. apply (proj1 (inject_Z_injective _ _)) in Z. now subst d.
Qed.

Lemma zsum_nonneg ds : Forall (fun d => 0 <= d)%Z ds -> (0 <= zsum ds)%Z.
Proof. induction 1; cbn [zsum fold_right]; [lia|]. fold (zsum l). lia. Qed.

Lemma zsum_bound ds d :
  Forall (fun d => 0 <= d)%Z ds -> In d ds -> (0 <= d <= zsum ds)%Z.
Proof.
  induction 1 as [|x l Hx Hl IH]; intros I; [contradiction|].
  cbn [zsum fold_right]. fold (zsum l). pose proof (zsum_nonneg l Hl).
  destruct I as [->|I]; [lia|]. specialize (IH I). lia.
Qed.

Lemma kmOf_int rows ds :
  map km rows = map ofZ ds ->
  Forall (fun d => 0 <= d)%Z ds -> (zsum ds < 2 ^ 53)%Z ->
  map kmOf rows = map (fun d => Fin false (inject_Z d)) ds.
Proof.
  intros E F B.
  assert (G : forall d, In d ds -> ofZ d = Fin false (inject_Z d)).
  { intros d I. apply ofZ_int. pose proof (zsum_bound ds d F I). lia. }
  clear F B. revert ds E G.
  induction rows as [|r rows IH]; intros [|d ds] E G; try discriminate; [reflexivity|].
  cbn [map] in *. injection E as E1 E2.
  rewrite (IH ds E2) by (intros; apply G; now right).
  unfold kmOf. rewrite E1, (G d) by now left. now rewrite orZero_int.
Qed.

Lemma add_int a b :
  (0 <= a)%Z -> (0 <= b)%Z -> (a + b < 2 ^ 53)%Z ->
  add (Fin false (inject_Z a)) (Fin false (inject_Z b)) = Fin false (inject_Z (a + b)).
Proof.
  intros A B S. cbn [add andb val].
  rewrite (ofQ_comp false _ (inject_Z (a + b))) by (now rewrite inject_Z_plus).
  apply (ofZ_int (a + b)). lia.
Qed.

Lemma totalKm_fold rows :
  totalKm rows = fold_left add (map kmOf rows) zero.
Proof.
  unfold totalKm. generalize zero.
  induction rows as [|r rows IH]; intros acc; cbn [fold_left map]; auto.
Qed.

Lemma fold_add_int ds : forall acc,
  (0 <= acc)%Z -> Forall (fun d => 0 <= d)%Z ds -> (acc + zsum ds < 2 ^ 53)%Z ->
  fold_left add (map (fun d => Fin false (inject_Z d)) ds) (Fin false (inject_Z acc))
  = Fin false (inject_Z (acc + zsum ds)).
Proof.
  induction ds as [|d ds IH]; intros acc A F B; cbn [map fold_left zsum fold_right] in *.
  - now rewrite Z.add_0_r.
  - fold (zsum ds) in *. inversion F as [|? ? Hd Hds]; subst.
    pose proof (zsum_nonneg ds Hds).
    rewrite add_int by lia. rewrite IH by (auto; lia).
    now rewrite Z.add_assoc.
Qed.

Lemma totalKm_int rows ds :
  map km rows = map ofZ ds ->
  Forall (fun d => 0 <= d)%Z ds -> (zsum ds < 2 ^ 53)%Z ->
  totalKm rows = Fin false (inject_Z (zsum ds)).
Proof.
  intros E F B. rewrite totalKm_fold, (kmOf_int rows ds E F B).
  apply (fold_add_int ds 0); [lia|assumption|lia].
Qed.

(** ** The sum of the rounded shares *)

Lemma shares_sum_near amount t ds :
  wf amount -> Qabs (value amount) <= tenTo9 -> (0 < t)%Z ->
  Forall (fun d => 0 <= d <= t)%Z ds ->
  near (valueSum (map (fun d => round2 (mul amount
                         (div (Fin false (inject_Z d)) (Fin false (inject_Z t))))) ds))
       (value amount * (inject_Z (zsum ds) / inject_Z t))
       ((1 # 100) * inject_Z (Z.of_nat (List.length ds))).
Proof.
  intros Wa Ha Ht F.
  assert (Tq : 0 < inject_Z t) by (change 0 with (inject_Z 0); now rewrite <- Zlt_Qlt).
  induction F as [|d ds [D1 D2] F IH].
  - cbn [map valueSum fold_right zsum List.length]. unfold near.
    change (inject_Z (Z.of_nat 0)) with 0. change (inject_Z 0) with 0.
    setoid_replace (0 / inject_Z t) with 0 by (field; lra). lra.
  - cbn [map valueSum fold_right zsum List.length]. fold (zsum ds).
    fold (valueSum (map (fun d => round2 (mul amount
                         (div (Fin false (inject_Z d)) (Fin false (inject_Z t))))) ds)).
    destruct (share_near amount false (inject_Z d) (inject_Z t) Wa Ha) as [_ N].
    { change 0 with (inject_Z 0). now rewrite <- Zle_Qle. }
    { now rewrite <- Zle_Qle. }
    { exact Tq. }
    cbn [val] in N. unfold near in *.
    rewrite Nat2Z.inj_succ, <- Z.add_1_r, !inject_Z_plus. change (inject_Z 1) with 1.
    set (x := value (round2 (mul amount (div (Fin false (inject_Z d)) (Fin false (inject_Z t)))))) in *.
    set (rest := valueSum _) in *.
    assert (Sp : value amount * ((inject_Z d + inject_Z (zsum ds)) / inject_Z t)
                 == value amount * (inject_Z d / inject_Z t)
                    + value amount * (inject_Z (zsum ds) / inject_Z t)) by (field; lra).
    rewrite Sp.
    set (e1 := value amount * (inject_Z d / inject_Z t)) in *.
    set (e2 := value amount * (inject_Z (zsum ds) / inject_Z t)) in *.
    set (n := inject_Z (Z.of_nat (List.length ds))) in *.
    clearbody x rest e1 e2 n. lra.
Qed.

Lemma computed_euros rows amount :
  gtb (totalKm rows) zero = true ->
  map euros (computed rows amount)
  = map (fun r => round2 (mul amount (div (kmOf r) (totalKm rows)))) rows.
Proof.
  intros G. unfold computed. rewrite map_map. apply map_ext. intros r.
  cbn [euros]. now rewrite G.
Qed.

Lemma computed_pct rows amount :
  gtb (totalKm rows) zero = true ->
  map pct (computed rows amount)
  = map (fun r => round2 (mul hundred (div (kmOf r) (totalKm rows)))) rows.
Proof.
  intros G. unfold computed. rewrite map_map. apply map_ext. intros r.
  cbn [pct]. rewrite G. now rewrite mul_comm.
Qed.

Lemma gtb_zero_int t : gtb (Fin false (inject_Z t)) zero = true -> (0 < t)%Z.
Proof.
  unfold gtb, zero. cbn [cmp val].
  destruct (Qcompare (inject_Z t) 0) eqn:C; try discriminate. intros _. qcmp C.
  change 0 with (inject_Z 0) in C. now rewrite <- Zlt_Qlt in C.
Qed.

Lemma shares_total rows ds amount :
  map km rows = map ofZ ds ->
  Forall (fun d => 0 <= d)%Z ds -> (zsum ds < 2 ^ 53)%Z ->
  gtb (totalKm rows) zero = true ->
  wf amount -> Qabs (value amount) <= tenTo9 ->
  Qabs (valueSum (map (fun r => round2 (mul amount (div (kmOf r) (totalKm rows)))) rows)
        - value amount)
  <= (1 # 100) * inject_Z (Z.of_nat (List.length rows)).
Proof.
  intros E F B G Wa Ha.
  pose proof (totalKm_int rows ds E F B) as T. rewrite T in *.
  pose proof (gtb_zero_int _ G) as Tpos.
  assert (Tq : 0 < inject_Z (zsum ds)) by (change 0 with (inject_Z 0); now rewrite <- Zlt_Qlt).
  rewrite <- (map_map kmOf (fun k => round2 (mul amount (div k (Fin false (inject_Z (zsum ds))))))).
  rewrite (kmOf_int rows ds E F B), map_map.
  assert (L : List.length rows = List.length ds).
  { apply (f_equal (@List.length number)) in E. now rewrite !length_map in E. }
  rewrite L.
  pose proof (shares_sum_near amount (zsum ds) ds Wa Ha Tpos) as N.
  assert (F' : Forall (fun d => 0 <= d <= zsum ds)%Z ds).
  { apply Forall_forall. intros d I. apply zsum_bound; assumption. }
  specialize (N F'). unfold near in N.
  assert (One : value amount * (inject_Z (zsum ds) / inject_Z (zsum ds)) == value amount)
    by (field; lra).
  rewrite One in N. apply Qabs_Qle_condition. lra.
Qed.

(** C6, amended. Distances that are non-negative whole numbers with a
    positive total below 2^53, and an amount of magnitude at most 10^9: the
    rounded amounts sum to the amount within 0.01 times the number of rows,
    and the rounded percentages sum to 100 within the same tolerance. *)
Theorem share_sum_within_tolerance rows ds s a :
  map km rows = map ofZ ds ->
  Forall (fun d => 0 <= d)%Z ds -> (zsum ds < 2 ^ 53)%Z ->
  gtb (totalKm rows) zero = true ->
  0 <= a -> a <= tenTo9 ->
  Qabs (valueSum (map euros (computed rows (Fin s a))) - value (Fin s a))
    <= (1 # 100) * inject_Z (Z.of_nat (List.length rows))
  /\ Qabs (valueSum (map pct (computed rows (Fin s a))) - 100)
    <= (1 # 100) * inject_Z (Z.of_nat (List.length rows)).
Proof.
  intros E F B G A0 A1. split.
  - rewrite computed_euros by assumption.
    apply (shares_total rows ds (Fin s a)); auto.
    cbn [value]. rewrite val_abs; assumption.
  - rewrite computed_pct by assumption.
    apply (shares_total rows ds hundred); auto.
    + discriminate.
    + unfold tenTo9. apply abs_le. cbn. split; discriminate.
Qed.

(** C6 as stated fails for a large amount: distances 1 and 2 and the amount
    10^17 give amounts that sum to 16 less than the amount. *)
Lemma share_sum_fails_for_huge_amount :
  gtb (totalKm twoRows) zero = true
  /\ valueSum (map euros (computed twoRows (ofZ (10 ^ 17)))) - value (ofZ (10 ^ 17)) == - (16)
  /\ ~ Qabs (valueSum (map euros (computed twoRows (ofZ (10 ^ 17)))) - value (ofZ (10 ^ 17)))
       <= (1 # 100) * inject_Z (Z.of_nat (List.length twoRows)).
Proof.
  assert (E : valueSum (map euros (computed twoRows (ofZ (10 ^ 17)))) - value (ofZ (10 ^ 17)) == - (16)).
  { vm_compute. reflexivity. }
  split; [vm_compute; reflexivity|]. split; [exact E|].
  rewrite E. vm_compute. intros H. apply H. reflexivity.
Qed.

Lemma round64_ge b m c :
  representable (Qabs c) -> 0 <= m -> m <= pow2 1023 -> c <= val b m ->
  c <= value (round64 b m).
Proof.
  intros (rc & Rc & Ec) Hm Hb H. unfold round64.
  destruct (roundMag_finite m Hm Hb) as [r R]. rewrite R. cbn [value].
  destruct (roundMag_err m r Hm R) as [Hr _].
  destruct b; cbn [val] in *.
  - (* negative result *)
    destruct (Qlt_le_dec 0 m) as [Pm|Zm].
    + assert (Ac : Qabs c == - c) by (apply Qabs_neg; lra).
      assert (Le : m <= Qabs c) by lra.
      pose proof (roundMag_mono m (Qabs c) r rc Pm Le R Rc). lra.
    + assert (Z0 : m == 0) by lra.
      rewrite (roundMag_zero m Z0) in R. injection R as <-. lra.
  - destruct (Qlt_le_dec 0 c) as [Pc|Nc]; [|lra].
    assert (Ac : Qabs c == c) by (apply Qabs_pos; lra).
    assert (Pc' : 0 < Qabs c) by lra.
    assert (Le : Qabs c <= m) by lra.
    pose proof (roundMag_mono (Qabs c) m rc r Pc' Le Rc R). lra.
Qed.

Lemma ofQ_ge z v c :
  representable (Qabs c) -> - pow2 1023 <= v <= pow2 1023 -> c <= v ->
  c <= value (ofQ z v).
Proof.
  intros Rc [B1 B2] H. unfold ofQ.
  destruct (Qcompare v 0) eqn:C; qcmp C.
  - cbn [value]. destruct z; cbn [val]; lra.
  - apply round64_ge; auto; try lra. cbn [val]. lra.
  - apply round64_ge; auto; lra.
Qed.

Lemma half_integer_representable n :
  (Z.abs (2 * n + 1) < 2 ^ 52)%Z ->
  representable (Qabs (inject_Z n + (1 # 2))).
Proof.
  intros B. set (h := Qabs (inject_Z n + (1 # 2))).
  set (j := Z.abs (2 * n + 1)) in *.
  assert (Hh : h == inject_Z j * (1 # 2)).
  { unfold h, j. destruct (Z_le_gt_dec 0 n) as [P|N].
    - assert (0 <= inject_Z n) by (change 0 with (inject_Z 0); now rewrite <- Zle_Qle).
      rewrite Qabs_pos by lra. rewrite Z.abs_eq by lia.
      rewrite inject_Z_plus, inject_Z_mult. change (inject_Z 1) with 1.
      change (inject_Z 2) with 2. lra.
    - assert (inject_Z n <= - (1)).
      { change (- (1)) with (inject_Z (-1)). rewrite <- Zle_Qle. lia. }
      rewrite Qabs_neg by lra. rewrite Z.abs_neq by lia.
      rewrite inject_Z_opp, inject_Z_plus, inject_Z_mult. change (inject_Z 1) with 1.
      change (inject_Z 2) with 2. lra. }
  assert (J1 : (1 <= j)%Z) by (unfold j; lia).
  assert (Qj1 : 1 <= inject_Z j) by (change 1 with (inject_Z 1); now rewrite <- Zle_Qle).
  assert (Qj2 : inject_Z j < pow2 52).
  { rewrite pow2_Z by lia. now rewrite <- Zlt_Qlt. }
  assert (Hpos : 0 < h) by lra.
  exists (Qred h). split; [|apply Qred_correct].
  apply (roundMag_exact h j (-1)).
  - exact Hpos.
  - rewrite Hh. reflexivity.
  - unfold ulpExp.
    assert (Hr : 0 < Qred h) by (rewrite Qred_correct; exact Hpos).
    destruct (ilog2_spec (Qred h) Hr) as [Lo _].
    pose proof (Qred_correct h) as Eh.
    assert (ilog2 (Qred h) < 51)%Z; [|lia].
    apply Qpower_lt_compat_l_inv with (q := 2#1); [|reflexivity].
    eapply Qle_lt_trans; [exact Lo|].
    fold (pow2 51). assert (P : pow2 52 == 2 * pow2 51) by reflexivity. lra.
  - assert (P : pow2 52 <= pow2 1024) by (apply pow2_le; lia). lra.
Qed.

Lemma representable_comp p q : p == q -> representable p -> representable q.
Proof.
  intros E (r & R & Er). exists r. rewrite <- (roundMag_comp _ _ E). split; [exact R|].
  now rewrite Er.
Qed.

Lemma strictEq_refl c m : strictEq (Fin c m) (Fin c m) = true.
Proof.
  unfold strictEq. cbn [cmp].
  replace (Qcompare (val c m) (val c m)) with Eq; [reflexivity|].
  symmetry. apply (proj1 (Qeq_alt _ _)). reflexivity.
Qed.

Lemma div_zero_hundred b : div (Fin b 0) hundred = Fin b 0.
Proof. destruct b; reflexivity. Qed.

Lemma ofZ_neg k : (- 2 ^ 53 < k < 0)%Z -> ofZ k = Fin true (inject_Z (- k)).
Proof.
  intros [L U]. unfold ofZ, ofQ.
  assert (C : Qcompare (inject_Z k) 0 = Lt).
  { apply (proj1 (Qlt_alt _ _)). change 0 with (inject_Z 0). rewrite <- Zlt_Qlt. lia. }
  rewrite C. unfold round64. rewrite <- inject_Z_opp, roundMag_int by lia. reflexivity.
Qed.

Lemma tenTo9_headroom : 100 * (tenTo9 + 2) <= pow2 1023.
Proof. unfold Qle. vm_compute. discriminate. Qed.

(** C7, amended. For a binary64 number [x] of magnitude at most 10^9,
    [round2 x] is the Number nearest to [k/100] for an integer [k] within
    1/2 + 1/1000 of [100 x] (the nearest cent, up to the error of computing
    [(x + EPSILON) * 100]); when [100 x] lies exactly halfway between two
    integers, [k] is the larger one, for negative [x] as for positive. *)
Theorem round2_nearest_cent s p :
  0 <= p -> p <= tenTo9 -> representable p ->
  exists k : Z,
    strictEq (round2 (Fin s p)) (div (ofZ k) hundred) = true
    /\ Qabs (inject_Z k - 100 * val s p) <= (1 # 2) + (1 # 1000)
    /\ (forall n : Z, 100 * val s p == inject_Z n + (1 # 2) -> k = (n + 1)%Z).
Proof.
  intros P0 P1 Rp. set (x := Fin s p).
  assert (Wx : wf x) by exact P0.
  assert (Ax : Qabs (value x) <= tenTo9) by (cbn [x value]; rewrite val_abs; assumption).
  assert (T10 : tenTo9 <= tenTo10) by discriminate.
  destruct (round2_steps x tenTo9 Wx Ax T10) as (Wz & Nz & Ww & _ & _).
  set (z := mul (add x EPSILON) hundred) in *.
  set (k := Qfloor (value z + (1 # 2))).
  pose proof (Qfloor_le (value z + (1#2))) as K1.
  pose proof (Qlt_floor (value z + (1#2))) as K2. fold k in K1, K2.
  rewrite inject_Z_plus in K2. change (inject_Z 1) with 1 in K2.
  unfold near in Nz. cbn [x value] in Nz, Ax. apply abs_le_inv in Ax.
  unfold tenTo9 in *.
  exists k. split; [|split].
  - (* the result is k/100, rounded *)
    assert (Kb : (- 2 ^ 53 < k < 2 ^ 53)%Z).
    { split; rewrite Zlt_Qlt.
      - apply Qlt_trans with (- (100000000002)); [reflexivity|lra].
      - apply Qle_lt_trans with 100000000002; [lra|reflexivity]. }
    change (round2 x) with (div (round z) hundred) in *.
    destruct z as [| |b q] eqn:Ez; try contradiction.
    cbn [wf] in Wz. cbn [value] in k, K1, K2, Nz.
    change (round (Fin b q)) with (Fin b (inject_Z (Z.abs k))) in *.
    destruct (Z_dec k 0) as [[Neg|Pos]|Zero].
    + assert (b = true).
      { destruct b; [reflexivity|exfalso]. cbn [val] in K2.
        assert (inject_Z k <= - (1)).
        { change (- (1)) with (inject_Z (-1)). rewrite <- Zle_Qle. lia. }
        lra. }
      subst b. rewrite Z.abs_neq in Ww |- * by lia. rewrite (ofZ_neg k) by lia.
      destruct (div (Fin true (inject_Z (- k))) hundred) as [| |c m] eqn:D;
        try contradiction.
      apply strictEq_refl.
    + assert (b = false).
      { destruct b; [exfalso|reflexivity]. cbn [val] in K1.
        assert (1 <= inject_Z k).
        { change 1 with (inject_Z 1). rewrite <- Zle_Qle. lia. }
        lra. }
      subst b. rewrite Z.abs_eq in Ww |- * by lia. rewrite (ofZ_int k) by lia.
      destruct (div (Fin false (inject_Z k)) hundred) as [| |c m] eqn:D;
        try contradiction.
      apply strictEq_refl.
    + rewrite Zero. change (inject_Z (Z.abs 0)) with 0.
      rewrite div_zero_hundred. destruct b; reflexivity.
  - apply abs_le. lra.
  - intros n Tie.
    (* a lower bound on z, passed through the two roundings *)
    assert (Nb : (Z.abs (2 * n + 1) < 2 ^ 52)%Z).
    { assert (- (100000000001) < inject_Z n < 100000000001) by lra.
      destruct H as [H1 H2].
      change (- (100000000001)) with (inject_Z (- 100000000001)) in H1.
      change (100000000001) with (inject_Z 100000000001) in H2.
      rewrite <- Zlt_Qlt in H1, H2. lia. }
    pose proof (half_integer_representable n Nb) as Rh.
    assert (Rc : representable (Qabs (val s p))).
    { apply (representable_comp p); [|exact Rp]. symmetry. now apply val_abs. }
    pose proof tenTo9_headroom as Head. unfold tenTo9 in Head.
    pose proof eta_pos as E0. pose proof eta_small as E1.
    destruct (add_err x EPSILON (1000000000 + 1)) as [Wy Ny];
      [assumption|apply wf_EPSILON| |lra|].
    { apply abs_le. change (value EPSILON) with (1 # 4503599627370496).
      cbn [x value]. lra. }
    assert (Gy : val s p <= value (add x EPSILON)).
    { change (add x EPSILON)
        with (ofQ (s && false) (val s p + (1 # 4503599627370496))).
      apply ofQ_ge; [exact Rc|lra|lra]. }
    unfold near in Ny. lit_u. change (value EPSILON) with (1 # 4503599627370496) in Ny.
    cbn [x value] in Ny.
    assert (Gz : inject_Z n + (1 # 2) <= value z).
    { unfold z. destruct (add x EPSILON) as [| |b q]; try contradiction.
      cbn [wf value] in *. cbn [mul hundred].
      apply round64_ge; [exact Rh| | |].
      - destruct b; cbn [val] in *; lra.
      - destruct b; cbn [val] in *; lra.
      - rewrite xorb_false_r. destruct b; cbn [val] in *; lra. }
    assert (L : (n + 1 <= k)%Z).
    { unfold k. rewrite <- (Qfloor_Z (n + 1)). apply Qfloor_resp_le.
      rewrite inject_Z_plus. change (inject_Z 1) with 1. lra. }
    assert (U : (k < n + 2)%Z).
    { rewrite Zlt_Qlt. rewrite inject_Z_plus. change (inject_Z 2) with 2. lra. }
    lia.
Qed.

End Rounding.

(** The four operations of the Number model give, on every pair of the
    samples, the result of the Standard Library's binary64 operations. *)
Lemma arithmetic_agrees_with_SpecFloat :
  Ieee.agree add (SpecFloat.SFadd 53 1024) = true
  /\ Ieee.agree sub (SpecFloat.SFsub 53 1024) = true
  /\ Ieee.agree mul (SpecFloat.SFmul 53 1024) = true
  /\ Ieee.agree div (SpecFloat.SFdiv 53 1024) = true.
Proof. vm_compute. repeat split. Qed.

(* ------------------------------------------------------------------ *)
(** ** Shares, settlement and the copied text *)

Lemma sentence_noPayment : sentence NoPaymentNeeded = noPaymentText.
Proof. cbn [sentence]. unfold noPaymentText. reflexivity. Qed.

Lemma sentence_await : sentence AwaitInput = awaitInputText.
Proof. cbn [sentence]. unfold awaitInputText. reflexivity. Qed.

Lemma sentence_generic : sentence GenericAdvice = genericText.
Proof. cbn [sentence]. unfold genericText. reflexivity. Qed.

Lemma sentence_pay p q x : sentence (PayFromTo p q x) = payText p x q.
Proof. cbn [sentence]. unfold payText. reflexivity. Qed.

Lemma computed_base rows amount : map base (computed rows amount) = rows.
Proof.
  unfold computed. rewrite map_map. cbn [base]. apply map_id.
Qed.




Lemma hasEuro_app a b : hasEuro (a ++ b) = hasEuro a || hasEuro b.
Proof. apply existsb_app. Qed.

Lemma hasEuro_pay p q x : hasEuro (payText p x q) = true.
Proof.
  unfold payText. rewrite !hasEuro_app.
  replace (hasEuro (lit " moet €")) with true by (vm_compute; reflexivity).
  now rewrite orb_true_r.
Qed.

Lemma fixed_texts_no_euro :
  hasEuro noPaymentText = false /\ hasEuro awaitInputText = false
  /\ hasEuro genericText = false.
Proof. vm_compute. auto. Qed.

Lemma fixed_texts_heads :
  hd 0%N noPaymentText = 71%N /\ hd 0%N awaitInputText = 86%N
  /\ hd 0%N genericText = 66%N.
Proof. vm_compute. auto. Qed.

(** C5. A total distance of 0 gives the await-input sentence whatever the
    number of rows; a positive total with a number of rows other than two
    gives the generic advice; the no-payment and the pay sentences come only
    from two rows with a positive total. *)
Theorem settlement_await_generic rows amount :
  (strictEq (totalKm rows) zero = true -> summary rows amount = sentence AwaitInput)
  /\ (gtb (totalKm rows) zero = true -> List.length rows <> 2 ->
      summary rows amount = sentence GenericAdvice)
  /\ (summary rows amount = sentence NoPaymentNeeded
      \/ (exists p q x, summary rows amount = sentence (PayFromTo p q x)) ->
      List.length rows = 2 /\ gtb (totalKm rows) zero = true).
Proof.
  rewrite sentence_await, sentence_generic, sentence_noPayment.
  split; [|split].
  - intros Z. unfold summary. rewrite (strictEq_gtb _ _ Z), andb_false_r, Z. reflexivity.
  - intros G L. unfold summary.
    apply Nat.eqb_neq in L. rewrite L. cbn [andb].
    rewrite (gtb_strictEq _ _ G). reflexivity.
  - intros H.
    destruct (Nat.eqb (List.length rows) 2 && gtb (totalKm rows) zero) eqn:C.
    + apply andb_prop in C as [L G]. apply Nat.eqb_eq in L. auto.
    + exfalso. unfold summary in H. rewrite C in H.
      destruct fixed_texts_no_euro as (_ & E1 & E2).
      destruct fixed_texts_heads as (H0 & H1 & H2).
      destruct (strictEq (totalKm rows) zero);
        (destruct H as [H|(p & q & x & H)];
         [ apply (f_equal (@hd N 0%N)) in H; congruence
         | rewrite sentence_pay in H; apply (f_equal hasEuro) in H;
           rewrite hasEuro_pay in H; congruence ]).
Qed.

Lemma summary_is_sentence rows amount : exists d, summary rows amount = sentence d.
Proof.
  unfold summary.
  destruct (Nat.eqb (List.length rows) 2 && gtb (totalKm rows) zero) eqn:C.
  - apply andb_prop in C as [L G]. apply Nat.eqb_eq in L.
    destruct rows as [|ra [|rb [|? ?]]]; try discriminate.
    cbn [computed map].
    match goal with |- context [strictEq ?d zero] => destruct (strictEq d zero) end.
    + exists NoPaymentNeeded. now rewrite sentence_noPayment.
    + match goal with |- context [gtb ?x ?y] => destruct (gtb x y) end;
        eexists (PayFromTo _ _ _); rewrite sentence_pay; reflexivity.
  - destruct (strictEq (totalKm rows) zero).
    + exists AwaitInput. now rewrite sentence_await.
    + exists GenericAdvice. now rewrite sentence_generic.
Qed.

Lemma fold_left_append (A : Type) (f : A -> jsstring) l : forall acc,
  fold_left (fun text c => text ++ f c) l acc = acc ++ List.concat (map f l).
Proof.
  induction l as [|c l IH]; intros acc; cbn [fold_left map List.concat].
  - now rewrite app_nil_r.
  - rewrite IH. now rewrite <- app_assoc.
Qed.

Theorem summary_layout rows amount :
  exists d,
    summary rows amount = sentence d
    /\ copyTikkieText rows amount = summaryText amount (computed rows amount) d
    /\ map base (computed rows amount) = rows.
Proof.
  destruct (summary_is_sentence rows amount) as [d S].
  exists d. split; [exact S|]. split; [|apply computed_base].
  unfold copyTikkieText, summaryText. rewrite <- S.
  rewrite (fold_left_append _ shareLine). unfold shareLine.
  rewrite <- !app_assoc. reflexivity.
Qed.

Lemma totalKm_sum rows : totalKm rows = sumNumbers (map kmOf rows).
Proof. apply totalKm_fold. Qed.

Lemma kmOf_truthy r : truthy (km r) = true -> kmOf r = km r.
Proof. unfold kmOf, orZero. now intros ->. Qed.

Lemma kmOf_falsy r : truthy (km r) = false -> kmOf r = zero.
Proof. unfold kmOf, orZero. now intros ->. Qed.

Lemma computed_row rows amount c :
  In c (computed rows amount) ->
  exists r, In r rows /\ base c = r
    /\ pct c = round2 (mul (if gtb (totalKm rows) zero
                            then div (kmOf r) (totalKm rows) else zero) hundred)
    /\ euros c = round2 (mul amount (if gtb (totalKm rows) zero
                                     then div (kmOf r) (totalKm rows) else zero)).
Proof.
  unfold computed. intros I. apply in_map_iff in I as (r & <- & I).
  exists r. cbn [base pct euros]. auto.
Qed.

(** C4. For a finite amount: [totalKm] is the sum of the distances, each
    read as [Number(km)||0]; the computed rows follow the rows in order;
    with a positive total each percentage is [round2(100 * km/total)] and
    each amount [round2(amount * km/total)]; otherwise, in particular when
    the total is 0, every percentage and amount is 0. *)
Theorem computed_shares_formula rows amount :
  isFinite amount = true ->
  totalKm rows = sumNumbers (map kmOf rows)
  /\ map base (computed rows amount) = rows
  /\ (forall c, In c (computed rows amount) ->
        (gtb (totalKm rows) zero = true ->
           pct c = round2 (mul hundred (div (kmOf (base c)) (totalKm rows)))
           /\ euros c = round2 (mul amount (div (kmOf (base c)) (totalKm rows))))
        /\ (gtb (totalKm rows) zero = false -> pct c = zero /\ euros c = zero))
  /\ (strictEq (totalKm rows) zero = true ->
        forall c, In c (computed rows amount) -> pct c = zero /\ euros c = zero)
  /\ (forall r, truthy (km r) = true -> kmOf r = km r)
  /\ (forall r, truthy (km r) = false -> kmOf r = zero).
Proof.
  intros Fa.
  assert (Z : gtb (totalKm rows) zero = false ->
              forall c, In c (computed rows amount) -> pct c = zero /\ euros c = zero).
  { intros G c I. apply computed_row in I as (r & _ & _ & -> & ->). rewrite G.
    destruct amount as [| |a p]; try discriminate.
    rewrite mul_zero_r, round2_of_zero. split; [exact round2_zero_hundred|reflexivity]. }
  split; [apply totalKm_sum|]. split; [apply computed_base|]. split; [|split; [|split]].
  - intros c I. split.
    + intros G. apply computed_row in I as (r & _ & <- & -> & ->). rewrite G.
      split; [now rewrite mul_comm|reflexivity].
    + intros G. now apply Z.
  - intros E. apply Z. now apply strictEq_gtb.
  - apply kmOf_truthy.
  - apply kmOf_falsy.
Qed.

(** The amount 100 is finite. *)
Lemma computed_shares_formula_witness :
  isFinite (ofZ 100) = true
  /\ totalKm exampleRows = sumNumbers (map kmOf exampleRows)
  /\ map base (computed exampleRows (ofZ 100)) = exampleRows.
Proof.
  split; [reflexivity|].
  pose proof (computed_shares_formula exampleRows (ofZ 100) eq_refl) as (H1 & H2 & _).
  split; assumption.
Defined.


(** No rows: the total is 0 and the summary awaits input. *)
Lemma settlement_await_generic_witness :
  strictEq (totalKm []) zero = true /\ summary [] (ofZ 50) = sentence AwaitInput.
Proof.
  split; [reflexivity|].
  exact (proj1 (settlement_await_generic [] (ofZ 50)) eq_refl).
Defined.

(** Rows A with 150 and B with 50, the amount 100. *)
Lemma share_sum_within_tolerance_witness :
  gtb (totalKm exampleRows) zero = true
  /\ (Qabs (valueSum (map euros (computed exampleRows (Fin false 100))) - value (Fin false 100))
      <= (1 # 100) * inject_Z (Z.of_nat (List.length exampleRows)))%Q.
Proof.
  split; [vm_compute; reflexivity|].
  refine (proj1 (share_sum_within_tolerance exampleRows [150; 50]%Z false 100%Q _ _ _ _ _ _)).
  - reflexivity.
  - repeat constructor; lia.
  - vm_compute; reflexivity.
  - vm_compute; reflexivity.
  - unfold Qle; simpl; lia.
  - unfold Qle; simpl; lia.
Defined.

(** C7 as stated fails on a negative tie: -4.125 is exactly halfway between
    -4.13 and -4.12; [round2] gives -4.12, rounding half away from zero
    gives -4.13. *)
Lemma round2_negative_tie_goes_up :
  (100 * val true (33 # 8) == - (412) - (1 # 2))%Q
  /\ toString (round2 (Fin true (33 # 8))) = lit "-4.12"
  /\ toString (round2HalfAway (Fin true (33 # 8))) = lit "-4.13"
  /\ round2 (Fin true (33 # 8)) <> round2HalfAway (Fin true (33 # 8)).
Proof.
  split; [reflexivity|]. split; [vm_compute; reflexivity|].
  split; [vm_compute; reflexivity|].
  intros H. apply (f_equal toString) in H. vm_compute in H. discriminate H.
Qed.

(** The number -4.125. *)
Lemma round2_nearest_cent_witness :
  representable (33 # 8)
  /\ exists k : Z,
       strictEq (round2 (Fin true (33 # 8))) (div (ofZ k) hundred) = true
       /\ (Qabs (inject_Z k - 100 * val true (33 # 8)) <= (1 # 2) + (1 # 1000))%Q
       /\ (forall n : Z, (100 * val true (33 # 8) == inject_Z n + (1 # 2))%Q -> k = (n + 1)%Z).
Proof.
  assert (R : representable (33 # 8)).
  { exists (33 # 8)%Q. split; [vm_compute; reflexivity|reflexivity]. }
  split; [exact R|].
  apply (round2_nearest_cent true (33 # 8)%Q).
  - unfold Qle; simpl; lia.
  - unfold Qle; simpl; lia.
  - exact R.
Defined.

(** C8. The copied text is the header line with the amount, a blank line,
    one line per computed row in the order of the rows, a blank line and
    the summary line, whose sentence is that of one of the four directives;
    each of the four occurs. *)
Theorem copy_text_layout rows amount :
  (exists d,
     summary rows amount = sentence d
     /\ copyTikkieText rows amount = summaryText amount (computed rows amount) d)
  /\ map base (computed rows amount) = rows
  /\ summary [] (ofZ 50) = sentence AwaitInput
  /\ summary threeRows (ofZ 50) = sentence GenericAdvice
  /\ summary equalRows (ofZ 50) = sentence NoPaymentNeeded
  /\ summary exampleRows (ofZ 100) = sentence (PayFromTo (lit "B") (lit "A") (ofZ 50))
  /\ copyTikkieText exampleRows (ofZ 100)
     = lit "Tankbeurt — totaal €100

A: 150 km — 75% — €75
B: 50 km — 25% — €25

Samenvatting: B moet €50 aan A betalen.".
Proof.
  split.
  { destruct (summary_layout rows amount) as (d & S & T & _). eauto. }
  split; [apply computed_base|].
  split; [vm_compute; reflexivity|].
  split; [vm_compute; reflexivity|].
  split; [vm_compute; reflexivity|].
  split; vm_compute; reflexivity.
Qed.
